(** * Sitemap_Builder: the [parse] package

  A shallow embedding of [parse/parse.go]: link extraction from a parsed
  HTML tree, the breadth-first crawl, URL resolution and the sitemap
  encoder, followed by the properties the specification states about
  them.

  Go strings are byte strings and are modelled by [string] (a list of
  8-bit characters).  Go maps used as sets ([map[string]struct{}]) are
  modelled by [gset string].  Go's [int] is modelled by [Z] with the
  64-bit wrap-around of [+] written out.  The lines the package prints
  ([fmt.Println], [fmt.Printf]) are left out: nothing it returns depends
  on them. *)

From Stdlib Require Import ZArith Ascii Lia.
From stdpp Require Import base gmap sets list strings pretty.

Set Warnings "-register-all".

Local Open Scope Z_scope.

(** ** Data model *)

(** [type Link struct { Href string; Text string }] *)
Record Link := mkLink { Href : string; Text : string }.

(** [type Url struct { Loc string }] and
  [type Urlset struct { XMLName xml.Name; Xmlns string; Urls []Url }].
  [XMLName] carries no data at run time: it only names the element
  ([urlset]) through its field tag. *)
Record Url := mkUrl { Loc : string }.
Record Urlset := mkUrlset { Xmlns : string; Urls : list Url }.

#[global] Instance Link_eq_dec : EqDecision Link.
Proof. solve_decision. Defined.

#[global] Instance Url_eq_dec : EqDecision Url.
Proof. solve_decision. Defined.

(** *** The HTML tree of [golang.org/x/net/html]

  [html.Node] is a tree linked by [FirstChild]/[NextSibling]; the loops
  [for c := n.FirstChild; c != nil; c = c.NextSibling] visit the children
  from left to right, so a node carries the list of its children. *)
Module html.

Inductive NodeType :=
| ErrorNode | TextNode | DocumentNode | ElementNode
| CommentNode | DoctypeNode | RawNode.

(** [type Attribute struct { Namespace, Key, Val string }] *)
Record Attribute := mkAttr { Namespace : string; Key : string; Val : string }.

Inductive Node :=
| mkNode (type : NodeType) (dataAtom : N) (data : string)
         (attr : list Attribute) (children : list Node).

Definition Type_ (n : Node) : NodeType := let 'mkNode t _ _ _ _ := n in t.
Definition DataAtom (n : Node) : N := let 'mkNode _ a _ _ _ := n in a.
Definition Data (n : Node) : string := let 'mkNode _ _ d _ _ := n in d.
Definition Attr (n : Node) : list Attribute := let 'mkNode _ _ _ a _ := n in a.
Definition Children (n : Node) : list Node := let 'mkNode _ _ _ _ c := n in c.

#[global] Instance NodeType_eq_dec : EqDecision NodeType.
Proof. solve_decision. Defined.

End html.

(** [atom.A], the code of the tag name [a] in
  [golang.org/x/net/html/atom]. *)
Module atom.
Definition A : N := 1%N.
End atom.

(** *** The [net/url] record

  [url.URL] is a public struct; the package only reads it through
  [IsAbs], [String] and [ResolveReference]. *)
Module url.

Record Userinfo := mkUserinfo
  { username : string; password : string; passwordSet : bool }.

Record URL := mkURL
  { Scheme : string;
    Opaque : string;
    User : option Userinfo;
    Host : string;
    Path : string;
    RawPath : string;
    OmitHost : bool;
    ForceQuery : bool;
    RawQuery : string;
    Fragment : string;
    RawFragment : string }.

(** [func (u *URL) IsAbs() bool { return u.Scheme != "" }] *)
Definition IsAbs (u : URL) : bool := negb (String.eqb (Scheme u) "").

End url.

(** ** The standard-library functions the package calls

  Their code is not part of this repository; the package is embedded
  over any implementation of them.  [Parse] returns [None] where Go's
  returns a non-nil error. *)
Class Library := {
  url_Parse : string → option url.URL;
  url_String : url.URL → string;
  url_ResolveReference : url.URL → url.URL → url.URL;
  strings_Fields : string → list string;
  strings_TrimSpace : string → string;
  xml_EscapeText : string → string
}.

(** [strings.HasPrefix(s, prefix)] *)
Definition HasPrefix (s prefix : string) : bool := String.prefix prefix s.

(** [strings.Join(elems, sep)] *)
Definition Join (elems : list string) (sep : string) : string :=
  String.concat sep elems.

(** ** Link extraction *)
Section Extract.
Context `{Library}.

(** [extractText]: the text of a text node is its data; nodes that are
    neither text nor element contribute nothing; an element contributes
    the concatenation of its children's texts, whitespace-normalised. *)
Fixpoint extractText (n : html.Node) : string :=
  match n with
  | html.mkNode type _ data _ children =>
      match type with
      | html.TextNode => data
      | html.ElementNode =>
          let sb := String.concat "" (List.map extractText children) in
          Join (strings_Fields sb) " "
      | _ => ""
      end
  end.

(** [isInternalLink] *)
Definition isInternalLink (link baseDomain : string) : bool :=
  HasPrefix link "/" || HasPrefix link baseDomain.

(** [resolveURL] *)
Definition resolveURL (base href : string) : string :=
  match url_Parse href with
  | None => href
  | Some hrefURL =>
      if url.IsAbs hrefURL then url_String hrefURL
      else
        match url_Parse base with
        | None => href
        | Some baseURL => url_String (url_ResolveReference baseURL hrefURL)
        end
  end.

(** The two variables the closure [walk] of [ExtractLinks] captures. *)
Record walkState := mkWalk { seen : gset string; links : list Link }.

(** The loop [for _, attr := range node.Attr] of [walk], for the anchor
    [node]: the first attribute that is an [href] AND passes
    [isInternalLink] is used, and the loop stops there ([break]); any
    other attribute is skipped. *)
Fixpoint walkAttrs (node : html.Node) (baseDomain : string)
    (attrs : list html.Attribute) (st : walkState) : walkState :=
  match attrs with
  | [] => st
  | attr :: rest =>
      if String.eqb (html.Key attr) "href"
         && isInternalLink (html.Val attr) baseDomain
      then
        let href := html.Val attr in
        let href := if HasPrefix href "/" then resolveURL baseDomain href
                    else href in
        if decide (href ∈ seen st) then st
        else {| seen := {[ href ]} ∪ seen st;
                links := links st ++
                  [ {| Href := href;
                       Text := strings_TrimSpace (extractText node) |} ] |}
      else walkAttrs node baseDomain rest st
  end.

(** [walk]: the anchor test on the node itself, then the children from
    left to right. *)
Fixpoint walk (baseDomain : string) (node : html.Node) (st : walkState)
    : walkState :=
  let st :=
    if bool_decide (html.Type_ node = html.ElementNode)
       && N.eqb (html.DataAtom node) atom.A
    then walkAttrs node baseDomain (html.Attr node) st
    else st in
  match node with
  | html.mkNode _ _ _ _ children =>
      fold_left (fun st child => walk baseDomain child st) children st
  end.

(** [ExtractLinks] *)
Definition ExtractLinks (n : html.Node) (baseDomain : string) : list Link :=
  links (walk baseDomain n {| seen := ∅; links := [] |}).

End Extract.

(** ** The network

  [FetchAndParse] builds a request, sends it with [client.Do], checks the
  status code and hands the body to [html.Parse].  What one such call
  observes is an [Exchange]; the [Client] decides it from the URL and from
  the URLs requested before, so a page may change between two requests. *)
Module http.

Definition StatusOK : Z := 200.

Inductive Exchange :=
| RequestError
| TransportError
| Response (StatusCode : Z) (Body : option html.Node).

Definition Client := list string → string → Exchange.

End http.

(** The errors [FetchAndParse] wraps with [fmt.Errorf]. *)
Inductive FetchError :=
| CreatingRequest
| FetchingURL
| ReceivedStatusCode (code : Z)
| ParsingHTML.

(** [FetchAndParse]; [requests] lists the URLs requested so far.  A
  [Response] whose [Body] is [None] is one whose body [html.Parse]
  rejects. *)
Definition FetchAndParse (url : string) (client : http.Client)
    (requests : list string) : html.Node + FetchError :=
  match client requests url with
  | http.RequestError => inr CreatingRequest
  | http.TransportError => inr FetchingURL
  | http.Response StatusCode Body =>
      if negb (StatusCode =? http.StatusOK) then inr (ReceivedStatusCode StatusCode)
      else match Body with
           | None => inr ParsingHTML
           | Some doc => inl doc
           end
  end.

(** ** Go's [int]: 64 bits, two's complement *)
Module int.

Definition min : Z := - 2 ^ 63.
Definition max : Z := 2 ^ 63 - 1.
Definition wrap (z : Z) : Z := (z + 2 ^ 63) mod 2 ^ 64 - 2 ^ 63.
Definition add (a b : Z) : Z := wrap (a + b).
Definition InRange (z : Z) : Prop := min ≤ z ≤ max.

End int.

(** ** The breadth-first crawl *)

(** [type Node struct { link Link; depth int }], local to [CrawlBFS]. *)
Record Node := mkNode { link : Link; depth : Z }.

(** The variables of the main loop of [CrawlBFS], and the URLs it has
  passed to [FetchAndParse] so far. *)
Record crawlState := mkCrawl
  { visited : gset string;
    queue : list Node;
    result : list Link;
    requests : list string }.

(** What a call of [CrawlBFS] leaves behind: the two returned values and
  the URLs it has passed to [FetchAndParse], in order. *)
Record Outcome := mkOutcome
  { returned : list Link;
    err : option string;
    fetches : list string }.

Section Crawl.
Context `{Library}.
Variable client : http.Client.
Variable maxDepth : Z.

(** The loop [for _, neighbor := range neighbors] over the links of the
  page of a node of depth [d]. *)
Fixpoint enqueue (neighbors : list Link) (d : Z)
    (visited : gset string) (queue : list Node) : gset string * list Node :=
  match neighbors with
  | [] => (visited, queue)
  | neighbor :: rest =>
      if decide (Href neighbor ∈ visited) then enqueue rest d visited queue
      else enqueue rest d ({[ Href neighbor ]} ∪ visited)
             (queue ++ [ {| link := neighbor; depth := int.add d 1 |} ])
  end.

(** One iteration of [for len(queue) > 0] (the state is returned
  unchanged on an empty queue, where the loop has ended). *)
Definition crawlStep (st : crawlState) : crawlState :=
  match queue st with
  | [] => st
  | currentNode :: queue' =>
      let result' := result st ++ [ link currentNode ] in
      if depth currentNode >=? maxDepth then
        {| visited := visited st; queue := queue';
           result := result'; requests := requests st |}
      else
        let href := Href (link currentNode) in
        let requests' := requests st ++ [ href ] in
        match FetchAndParse href client (requests st) with
        | inr _ =>
            {| visited := visited st; queue := queue';
               result := result'; requests := requests' |}
        | inl doc =>
            let neighbors := ExtractLinks doc href in
            let '(visited', queue'') :=
              enqueue neighbors (depth currentNode) (visited st) queue' in
            {| visited := visited'; queue := queue'';
               result := result'; requests := requests' |}
        end
  end.

(** The loop itself; [fuel] bounds the number of iterations, and [None]
  means that [fuel] iterations did not empty the queue. *)
Fixpoint crawlLoop (fuel : nat) (st : crawlState) : option crawlState :=
  match queue st with
  | [] => Some st
  | _ :: _ =>
      match fuel with
      | O => None
      | S fuel' => crawlLoop fuel' (crawlStep st)
      end
  end.

End Crawl.

(** [CrawlBFS] *)
Definition CrawlBFS `{Library} (fuel : nat) (links : list Link)
    (maxDepth : Z) (client : http.Client) : option Outcome :=
  match links with
  | [] => Some {| returned := []; err := Some "no links to traverse";
                  fetches := [] |}
  | links_0 :: _ =>
      let st := {| visited := {[ Href links_0 ]};
                   queue := [ {| link := links_0; depth := 0 |} ];
                   result := []; requests := [] |} in
      match crawlLoop client maxDepth fuel st with
      | None => None
      | Some st' => Some {| returned := result st'; err := None;
                            fetches := requests st' |}
      end
  end.

(** ** The sitemap encoder *)
Module xml.

(** [xml.Header] *)
Definition Header : string :=
  "<?xml version=" +:+ String (ascii_of_nat 34) "1.0" +:+ String (ascii_of_nat 34) " encoding="
   +:+ String (ascii_of_nat 34) "UTF-8" +:+ String (ascii_of_nat 34) "?>" +:+ String (ascii_of_nat 10) "".

End xml.

(** ** A reference implementation of [Library]

  [golib] models the standard-library functions on the inputs the
  examples of this development run on.  It follows the algorithms of
  [net/url], [strings] and [encoding/xml] step by step, with these limits:
  - [Parse] reports an error for every input that contains a percent
    sign, and for an authority that contains an at sign or starts with an
    opening bracket (percent-decoding, user information and IPv6 literals
    are not modelled);
  - [EscapeText] copies bytes above 127 (it does not validate UTF-8). *)
Module golib.

Definition byte (c : ascii) : Z := Z.of_nat (nat_of_ascii c).
Definition chr (z : Z) : ascii := ascii_of_nat (Z.to_nat z).

Definition isLetter (c : ascii) : bool :=
  (97 <=? byte c) && (byte c <=? 122) || (65 <=? byte c) && (byte c <=? 90).
Definition isDigit (c : ascii) : bool := (48 <=? byte c) && (byte c <=? 57).

(** [strings.ContainsRune]/[strings.IndexByte(s, c) >= 0] for a byte. *)
Fixpoint containsByte (c : ascii) (s : string) : bool :=
  match s with
  | EmptyString => false
  | String a s' => Ascii.eqb a c || containsByte c s'
  end.

(** [strings.Cut(s, sep)] for a one-byte separator. *)
Fixpoint Cut (s : string) (sep : ascii) : string * string * bool :=
  match s with
  | EmptyString => (EmptyString, EmptyString, false)
  | String a s' =>
      if Ascii.eqb a sep then (EmptyString, s', true)
      else let '(before, after, found) := Cut s' sep in
           (String a before, after, found)
  end.

(** [s[:i]] and [s[i+1:]] for [i := strings.LastIndex(s, sep)], or
  [None] when [sep] does not occur. *)
Fixpoint cutLast (s : string) (sep : ascii) : option (string * string) :=
  match s with
  | EmptyString => None
  | String a s' =>
      match cutLast s' sep with
      | Some (before, after) => Some (String a before, after)
      | None => if Ascii.eqb a sep then Some (EmptyString, s') else None
      end
  end.

(** [strings.Split(s, sep)] for a one-byte separator. *)
Fixpoint Split (s : string) (sep : ascii) : list string :=
  match s with
  | EmptyString => [EmptyString]
  | String a s' =>
      if Ascii.eqb a sep then EmptyString :: Split s' sep
      else match Split s' sep with
           | [] => [String a EmptyString]
           | elem :: elems => String a elem :: elems
           end
  end.

(** [s[:len(s)-1]] *)
Fixpoint dropLast (s : string) : string :=
  match s with
  | EmptyString => EmptyString
  | String a EmptyString => EmptyString
  | String a s' => String a (dropLast s')
  end.

Definition nonEmpty (s : string) : bool := negb (String.eqb s EmptyString).

Definition smap (f : ascii → ascii) (s : string) : string :=
  String.string_of_list_ascii (List.map f (String.list_ascii_of_string s)).

Definition sforall (f : ascii → bool) (s : string) : bool :=
  forallb f (String.list_ascii_of_string s).

(** [strings.ToLower] on ASCII letters. *)
Definition ToLower (s : string) : string :=
  smap (fun c => if (65 <=? byte c) && (byte c <=? 90) then chr (byte c + 32) else c) s.

(** *** [net/url] *)

Inductive encoding :=
| encodePath | encodePathSegment | encodeHost | encodeZone
| encodeUserPassword | encodeQueryComponent | encodeFragment.

Definition oneOf (c : ascii) (set : string) : bool := containsByte c set.

Definition quote : string := String (ascii_of_nat 34) EmptyString.

(** [shouldEscape] *)
Definition shouldEscape (c : ascii) (mode : encoding) : bool :=
  if isLetter c || isDigit c then false
  else if match mode with encodeHost | encodeZone => true | _ => false end
          && oneOf c ("!$&'()*+,;=:[]<>" +:+ quote)
  then false
  else if oneOf c "-_.~" then false
  else if oneOf c "$&+,/:;=?@"
          && match mode with
             | encodePath | encodePathSegment | encodeUserPassword
             | encodeQueryComponent | encodeFragment => true
             | _ => false
             end
  then match mode with
       | encodePath => Ascii.eqb c "?"
       | encodePathSegment => oneOf c "/;,?"
       | encodeUserPassword => oneOf c "@/?:"
       | encodeQueryComponent => true
       | _ => false
       end
  else if match mode with encodeFragment => true | _ => false end
          && oneOf c "!()*"
  then false
  else true.

Definition upperhex (z : Z) : ascii :=
  if z <? 10 then chr (48 + z) else chr (55 + z).

(** [escape], for the modes other than [encodeQueryComponent]. *)
Fixpoint escape (s : string) (mode : encoding) : string :=
  match s with
  | EmptyString => EmptyString
  | String c s' =>
      if shouldEscape c mode
      then String "%" (String (upperhex (byte c / 16))
                         (String (upperhex (byte c mod 16)) (escape s' mode)))
      else String c (escape s' mode)
  end.

(** [unescape] on a string without percent sign: the string itself, or
  an error in host mode on a byte that may not stand in a host. *)
Definition unescape (s : string) (mode : encoding) : option string :=
  match mode with
  | encodeHost | encodeZone =>
      if sforall (fun c => negb ((byte c <? 128) && shouldEscape c encodeHost)) s
      then Some s else None
  | _ => Some s
  end.

(** [validEncoded] *)
Definition validEncoded (s : string) (mode : encoding) : bool :=
  sforall (fun c => oneOf c "!$&'()*+,;=:@[]%" || negb (shouldEscape c mode)) s.

(** [stringContainsCTLByte] *)
Definition stringContainsCTLByte (s : string) : bool :=
  negb (sforall (fun c => negb ((byte c <? 32) || (byte c =? 127))) s).

(** [getScheme]: the scheme (empty if there is none) and the rest, or
  [None] for the error "missing protocol scheme". *)
Fixpoint getSchemeFrom (rawURL : string) (i : nat) (before rest : string)
    : option (string * string) :=
  match rest with
  | EmptyString => Some (EmptyString, rawURL)
  | String c rest' =>
      if isLetter c then getSchemeFrom rawURL (S i) (before +:+ String c EmptyString) rest'
      else if isDigit c || oneOf c "+-." then
        match i with
        | O => Some (EmptyString, rawURL)
        | _ => getSchemeFrom rawURL (S i) (before +:+ String c EmptyString) rest'
        end
      else if Ascii.eqb c ":" then
        match i with
        | O => None
        | _ => Some (before, rest')
        end
      else Some (EmptyString, rawURL)
  end.

Definition getScheme (rawURL : string) : option (string * string) :=
  getSchemeFrom rawURL O EmptyString rawURL.

(** [validOptionalPort] *)
Definition validOptionalPort (port : string) : bool :=
  match port with
  | EmptyString => true
  | String c digits => Ascii.eqb c ":" && sforall isDigit digits
  end.

(** [parseHost], hosts in brackets apart. *)
Definition parseHost (host : string) : option string :=
  let portOk :=
    match cutLast host ":" with
    | Some (_, port) => validOptionalPort (String ":" port)
    | None => true
    end in
  if portOk then unescape host encodeHost else None.

(** [parseAuthority], user information apart. *)
Definition parseAuthority (authority : string) : option string :=
  if containsByte "@" authority || HasPrefix authority "[" then None
  else parseHost authority.

Definition empty : url.URL :=
  {| url.Scheme := EmptyString; url.Opaque := EmptyString; url.User := None;
     url.Host := EmptyString; url.Path := EmptyString;
     url.RawPath := EmptyString; url.OmitHost := false;
     url.ForceQuery := false; url.RawQuery := EmptyString;
     url.Fragment := EmptyString; url.RawFragment := EmptyString |}.

(** [url.Path = "*"], the one assignment [parse] makes for the URL
  [*]. *)
Definition starPath (u : url.URL) : url.URL :=
  {| url.Scheme := url.Scheme u; url.Opaque := url.Opaque u;
     url.User := url.User u; url.Host := url.Host u;
     url.Path := "*"; url.RawPath := url.RawPath u;
     url.OmitHost := url.OmitHost u; url.ForceQuery := url.ForceQuery u;
     url.RawQuery := url.RawQuery u; url.Fragment := url.Fragment u;
     url.RawFragment := url.RawFragment u |}.

(** [func (u *URL) setPath(p string) error] *)
Definition setPath (u : url.URL) (p : string) : option url.URL :=
  match unescape p encodePath with
  | None => None
  | Some path =>
      let raw := if String.eqb p (escape path encodePath) then EmptyString else p in
      Some {| url.Scheme := url.Scheme u; url.Opaque := url.Opaque u;
              url.User := url.User u; url.Host := url.Host u;
              url.Path := path; url.RawPath := raw;
              url.OmitHost := url.OmitHost u; url.ForceQuery := url.ForceQuery u;
              url.RawQuery := url.RawQuery u; url.Fragment := url.Fragment u;
              url.RawFragment := url.RawFragment u |}
  end.

(** [func (u *URL) setFragment(f string) error] *)
Definition setFragment (u : url.URL) (f : string) : option url.URL :=
  match unescape f encodeFragment with
  | None => None
  | Some frag =>
      let raw := if String.eqb f (escape frag encodeFragment) then EmptyString else f in
      Some {| url.Scheme := url.Scheme u; url.Opaque := url.Opaque u;
              url.User := url.User u; url.Host := url.Host u;
              url.Path := url.Path u; url.RawPath := url.RawPath u;
              url.OmitHost := url.OmitHost u; url.ForceQuery := url.ForceQuery u;
              url.RawQuery := url.RawQuery u; url.Fragment := frag;
              url.RawFragment := raw |}
  end.

Definition HasSuffix (s suffix : string) : bool :=
  String.prefix (String.rev suffix) (String.rev s).

Definition countByte (c : ascii) (s : string) : nat :=
  length (filter (fun a => a = c) (String.list_ascii_of_string s)).

(** [parse(rawURL, false)] *)
Definition parse (rawURL : string) : option url.URL :=
  if stringContainsCTLByte rawURL then None
  else if String.eqb rawURL "*" then Some (starPath empty)
  else
    match getScheme rawURL with
    | None => None
    | Some (scheme, rest) =>
        let scheme := ToLower scheme in
        let '(rest, forceQuery, rawQuery) :=
          if HasSuffix rest "?" && (countByte "?" rest =? 1)%nat
          then (dropLast rest, true, EmptyString)
          else let '(before, after, _) := Cut rest "?" in (before, false, after) in
        let u (opaque host : string) (omitHost : bool) : url.URL :=
          {| url.Scheme := scheme; url.Opaque := opaque; url.User := None;
             url.Host := host; url.Path := EmptyString;
             url.RawPath := EmptyString; url.OmitHost := omitHost;
             url.ForceQuery := forceQuery; url.RawQuery := rawQuery;
             url.Fragment := EmptyString; url.RawFragment := EmptyString |} in
        if negb (HasPrefix rest "/") && nonEmpty scheme
        then Some (u rest EmptyString false)
        else if negb (HasPrefix rest "/")
                && (let '(segment, _, _) := Cut rest "/" in containsByte ":" segment)
        then None
        else if (nonEmpty scheme || negb (HasPrefix rest "///"))
                && HasPrefix rest "//"
        then
          let '(authority, after, found) := Cut (String.substring 2 (String.length rest) rest) "/" in
          let rest := if found then String "/" after else EmptyString in
          match parseAuthority authority with
          | None => None
          | Some host => setPath (u EmptyString host false) rest
          end
        else setPath (u EmptyString EmptyString
                        (nonEmpty scheme && HasPrefix rest "/")) rest
    end.

(** [url.Parse] *)
Definition Parse (rawURL : string) : option url.URL :=
  if containsByte "%" rawURL then None
  else
    let '(u, frag, _) := Cut rawURL "#" in
    match parse u with
    | None => None
    | Some url => if nonEmpty frag then setFragment url frag else Some url
    end.

(** [func (u *URL) EscapedPath() string] *)
Definition EscapedPath (u : url.URL) : string :=
  if nonEmpty (url.RawPath u) && validEncoded (url.RawPath u) encodePath
     && bool_decide (unescape (url.RawPath u) encodePath = Some (url.Path u))
  then url.RawPath u
  else if String.eqb (url.Path u) "*" then "*"
  else escape (url.Path u) encodePath.

(** [func (u *URL) EscapedFragment() string] *)
Definition EscapedFragment (u : url.URL) : string :=
  if nonEmpty (url.RawFragment u) && validEncoded (url.RawFragment u) encodeFragment
     && bool_decide (unescape (url.RawFragment u) encodeFragment = Some (url.Fragment u))
  then url.RawFragment u
  else escape (url.Fragment u) encodeFragment.

(** [func (u *Userinfo) String() string] *)
Definition Userinfo_String (ui : url.Userinfo) : string :=
  escape (url.username ui) encodeUserPassword
  +:+ (if url.passwordSet ui
       then ":" +:+ escape (url.password ui) encodeUserPassword
       else EmptyString).

Definition isSome {A} (o : option A) : bool :=
  match o with Some _ => true | None => false end.

(** [func (u *URL) String() string] *)
Definition URL_String (u : url.URL) : string :=
  let buf := if nonEmpty (url.Scheme u) then url.Scheme u +:+ ":" else EmptyString in
  let buf :=
    if nonEmpty (url.Opaque u) then buf +:+ url.Opaque u
    else
      let buf :=
        if nonEmpty (url.Scheme u) || nonEmpty (url.Host u) || isSome (url.User u)
        then
          if url.OmitHost u && negb (nonEmpty (url.Host u)) && negb (isSome (url.User u))
          then buf
          else
            let buf :=
              if nonEmpty (url.Host u) || nonEmpty (url.Path u) || isSome (url.User u)
              then buf +:+ "//" else buf in
            let buf :=
              match url.User u with
              | Some ui => buf +:+ Userinfo_String ui +:+ "@"
              | None => buf
              end in
            if nonEmpty (url.Host u) then buf +:+ escape (url.Host u) encodeHost
            else buf
        else buf in
      let path := EscapedPath u in
      let buf :=
        if nonEmpty path && negb (HasPrefix path "/") && nonEmpty (url.Host u)
        then buf +:+ "/" else buf in
      let buf :=
        if negb (nonEmpty buf)
           && (let '(segment, _, _) := Cut path "/" in containsByte ":" segment)
        then buf +:+ "./" else buf in
      buf +:+ path in
  let buf :=
    if url.ForceQuery u || nonEmpty (url.RawQuery u)
    then buf +:+ "?" +:+ url.RawQuery u else buf in
  if nonEmpty (url.Fragment u) then buf +:+ "#" +:+ EscapedFragment u else buf.

(** The body of the loop of [resolvePath] for one element of the path:
  [dst] is the builder, [first] the flag of the same name. *)
Definition resolveElem (st : string * bool) (elem : string) : string * bool :=
  let '(dst, first) := st in
  if String.eqb elem "." then (dst, false)
  else if String.eqb elem ".." then
    let str := String.substring 1 (String.length dst) dst in
    match cutLast str "/" with
    | None => ("/", true)
    | Some (before, _) => ("/" +:+ before, first)
    end
  else ((if first then dst else dst +:+ "/") +:+ elem, false).

(** [resolvePath] *)
Definition resolvePath (base ref : string) : string :=
  let full :=
    if negb (nonEmpty ref) then base
    else if negb (HasPrefix ref "/") then
      match cutLast base "/" with
      | Some (before, _) => before +:+ "/" +:+ ref
      | None => ref
      end
    else ref in
  if negb (nonEmpty full) then EmptyString
  else
    let elems := Split full "/" in
    let '(dst, _) := fold_left resolveElem elems ("/", true) in
    let elem := List.last elems EmptyString in
    let r := if String.eqb elem "." || String.eqb elem ".." then dst +:+ "/" else dst in
    if HasPrefix r "//" then String.substring 1 (String.length r) r else r.

Definition orKeep (u : url.URL) (o : option url.URL) : url.URL :=
  match o with Some u' => u' | None => u end.

(** [func (u *URL) ResolveReference(ref *URL) *URL] *)
Definition ResolveReference (u ref : url.URL) : url.URL :=
  let scheme := if nonEmpty (url.Scheme ref) then url.Scheme ref else url.Scheme u in
  let with_ (user : option url.Userinfo) (host opaque rawQuery frag rawFrag : string) :=
    {| url.Scheme := scheme; url.Opaque := opaque; url.User := user;
       url.Host := host; url.Path := url.Path ref; url.RawPath := url.RawPath ref;
       url.OmitHost := url.OmitHost ref; url.ForceQuery := url.ForceQuery ref;
       url.RawQuery := rawQuery; url.Fragment := frag;
       url.RawFragment := rawFrag |} in
  let noPath (v : url.URL) :=
    {| url.Scheme := url.Scheme v; url.Opaque := url.Opaque v; url.User := None;
       url.Host := EmptyString; url.Path := EmptyString; url.RawPath := url.RawPath v;
       url.OmitHost := url.OmitHost v; url.ForceQuery := url.ForceQuery v;
       url.RawQuery := url.RawQuery v; url.Fragment := url.Fragment v;
       url.RawFragment := url.RawFragment v |} in
  let url0 := with_ (url.User ref) (url.Host ref) (url.Opaque ref)
                (url.RawQuery ref) (url.Fragment ref) (url.RawFragment ref) in
  if nonEmpty (url.Scheme ref) || nonEmpty (url.Host ref) || isSome (url.User ref)
  then orKeep url0 (setPath url0 (resolvePath (EscapedPath ref) EmptyString))
  else if nonEmpty (url.Opaque ref) then noPath url0
  else
    let inherit := negb (nonEmpty (url.Path ref)) && negb (url.ForceQuery ref)
                   && negb (nonEmpty (url.RawQuery ref)) in
    let rawQuery := if inherit then url.RawQuery u else url.RawQuery ref in
    let keepFrag := inherit && negb (nonEmpty (url.Fragment ref)) in
    let frag := if keepFrag then url.Fragment u else url.Fragment ref in
    let rawFrag := if keepFrag then url.RawFragment u else url.RawFragment ref in
    if negb (nonEmpty (url.Path ref)) && nonEmpty (url.Opaque u)
    then noPath (with_ (url.User ref) (url.Host ref) (url.Opaque u) rawQuery frag rawFrag)
    else
      let url1 := with_ (url.User u) (url.Host u) (url.Opaque ref) rawQuery frag rawFrag in
      orKeep url1 (setPath url1 (resolvePath (EscapedPath u) (EscapedPath ref))).

(** *** [strings]

  [unicode.IsSpace] holds of six ASCII bytes and of the code points
  U+0085, U+00A0, U+1680, U+2000 to U+200A, U+2028, U+2029, U+202F, U+205F
  and U+3000.  [spaceWidth s] is the number of bytes of the white-space
  character that [s] starts with in UTF-8, or [0] when it starts with
  none. *)
Definition spaceWidth (s : string) : nat :=
  match List.map byte (String.list_ascii_of_string s) with
  | 9 :: _ | 10 :: _ | 11 :: _ | 12 :: _ | 13 :: _ | 32 :: _ => 1%nat
  | 194 :: 133 :: _ | 194 :: 160 :: _ => 2%nat
  | 225 :: 154 :: 128 :: _ => 3%nat
  | 226 :: 128 :: b :: _ =>
      if (128 <=? b) && (b <=? 138) || (b =? 168) || (b =? 169) || (b =? 175)
      then 3%nat else 0%nat
  | 226 :: 129 :: 159 :: _ => 3%nat
  | 227 :: 128 :: 128 :: _ => 3%nat
  | _ => 0%nat
  end.

(** Every byte of [s] with the flag: it belongs to a white-space
  character. *)
Fixpoint markSpace (s : string) (skip : nat) : list (ascii * bool) :=
  match s with
  | EmptyString => []
  | String c s' =>
      match skip with
      | S k => (c, true) :: markSpace s' k
      | O =>
          match spaceWidth s with
          | O => (c, false) :: markSpace s' O
          | S k => (c, true) :: markSpace s' k
          end
      end
  end.

Definition flush (cur : string) : list string :=
  if nonEmpty cur then [cur] else [].

Fixpoint fieldsOf (marked : list (ascii * bool)) (cur : string) : list string :=
  match marked with
  | [] => flush cur
  | (c, true) :: rest => flush cur ++ fieldsOf rest EmptyString
  | (c, false) :: rest => fieldsOf rest (cur +:+ String c EmptyString)
  end.

(** [strings.Fields] *)
Definition Fields (s : string) : list string := fieldsOf (markSpace s O) EmptyString.

Fixpoint dropSpace (marked : list (ascii * bool)) : list (ascii * bool) :=
  match marked with
  | (_, true) :: rest => dropSpace rest
  | _ => marked
  end.

(** [strings.TrimSpace] *)
Definition TrimSpace (s : string) : string :=
  String.string_of_list_ascii
    (List.map fst (rev (dropSpace (rev (dropSpace (markSpace s O)))))).

(** *** [encoding/xml] *)

(** [xml.EscapeText] on one byte: the five characters with an entity,
  tab, line feed and carriage return; any other control character becomes
  U+FFFD. *)
Definition escapeByte (c : ascii) : string :=
  let b := byte c in
  if b =? 34 then "&#34;"
  else if b =? 39 then "&#39;"
  else if b =? 38 then "&amp;"
  else if b =? 60 then "&lt;"
  else if b =? 62 then "&gt;"
  else if b =? 9 then "&#x9;"
  else if b =? 10 then "&#xA;"
  else if b =? 13 then "&#xD;"
  else if b <? 32 then String (chr 239) (String (chr 191) (String (chr 189) EmptyString))
  else String c EmptyString.

(** The bytes [EscapeText] copies as they are among the printable
  ASCII ones: all but the five that have an entity. *)
Definition plainByte (c : ascii) : bool :=
  (32 <=? byte c) && (byte c <=? 126)
  && negb ((byte c =? 34) || (byte c =? 38) || (byte c =? 39)
           || (byte c =? 60) || (byte c =? 62)).

Definition EscapeText (s : string) : string :=
  String.concat EmptyString (List.map escapeByte (String.list_ascii_of_string s)).

#[export] Instance lib : Library :=
  {| url_Parse := Parse;
     url_String := URL_String;
     url_ResolveReference := ResolveReference;
     strings_Fields := Fields;
     strings_TrimSpace := TrimSpace;
     xml_EscapeText := EscapeText |}.

End golib.

(** ** Vocabulary of the specification of link extraction *)

(** The nodes of a document in document order: a node, then the nodes
  of its children from left to right (depth first). *)
Fixpoint preorder (n : html.Node) : list html.Node :=
  match n with
  | html.mkNode _ _ _ _ children => n :: List.concat (List.map preorder children)
  end.

Definition isAnchor (n : html.Node) : bool :=
  bool_decide (html.Type_ n = html.ElementNode) && N.eqb (html.DataAtom n) atom.A.

Definition isHref (attr : html.Attribute) : bool := String.eqb (html.Key attr) "href".

Section ExtractSpec.
Context `{Library}.

(** The value of the attribute at which the attribute loop of [walk]
  stops, if it stops. *)
Fixpoint firstInternalHref (baseDomain : string) (attrs : list html.Attribute)
    : option string :=
  match attrs with
  | [] => None
  | attr :: rest =>
      if isHref attr && isInternalLink (html.Val attr) baseDomain
      then Some (html.Val attr)
      else firstInternalHref baseDomain rest
  end.

(** The href a raw attribute value is recorded under. *)
Definition absolute (baseDomain raw : string) : string :=
  if HasPrefix raw "/" then resolveURL baseDomain raw else raw.

(** The link an anchor yields, before deduplication. *)
Definition anchorLink (baseDomain : string) (n : html.Node) : option Link :=
  if isAnchor n then
    match firstInternalHref baseDomain (html.Attr n) with
    | Some raw => Some {| Href := absolute baseDomain raw;
                          Text := strings_TrimSpace (extractText n) |}
    | None => None
    end
  else None.

(** The links the anchors of a document yield, in document order. *)
Definition candidates (baseDomain : string) (doc : html.Node) : list Link :=
  omap (anchorLink baseDomain) (preorder doc).

(** Recording one link: the test on [seen] and the two updates. *)
Definition record (st : walkState) (l : Link) : walkState :=
  if decide (Href l ∈ seen st) then st
  else {| seen := {[ Href l ]} ∪ seen st; links := links st ++ [l] |}.

End ExtractSpec.

(** ** The sitemap encoder, continued

  [xml.MarshalIndent(urlset, "", "  ")] on a [Urlset].  The printer of
  [encoding/xml] keeps the nesting depth and two flags; [writeIndent] is
  called before every start tag (with [+1]) and every end tag (with [-1]).
  Marshalling a struct whose fields are strings and slices of such structs
  returns no error. *)
Record printer := mkPrinter
  { buf : string; pdepth : nat; indentedIn : bool; putNewline : bool }.

Definition indent : string := "  ".

Definition newline : string := String (ascii_of_nat 10) EmptyString.

Fixpoint repeatString (s : string) (n : nat) : string :=
  match n with
  | O => EmptyString
  | S n' => s +:+ repeatString s n'
  end.

Definition write (p : printer) (s : string) : printer :=
  {| buf := buf p +:+ s; pdepth := pdepth p;
     indentedIn := indentedIn p; putNewline := putNewline p |}.

(** [func (p *printer) writeIndent(depthDelta int)], start tags. *)
Definition writeIndentIn (p : printer) : printer :=
  let p := if putNewline p then write p newline else p in
  {| buf := buf p +:+ repeatString indent (pdepth p);
     pdepth := S (pdepth p); indentedIn := true; putNewline := true |}.

(** [func (p *printer) writeIndent(depthDelta int)], end tags. *)
Definition writeIndentOut (p : printer) : printer :=
  let d := Nat.pred (pdepth p) in
  if indentedIn p then
    {| buf := buf p; pdepth := d; indentedIn := false; putNewline := putNewline p |}
  else
    let p := if putNewline p then write p newline else p in
    {| buf := buf p +:+ repeatString indent d;
       pdepth := d; indentedIn := false; putNewline := true |}.

Definition writeStart (p : printer) (name attrs : string) : printer :=
  write (writeIndentIn p) ("<" +:+ name +:+ attrs +:+ ">").

Definition writeEnd (p : printer) (name : string) : printer :=
  write (writeIndentOut p) ("</" +:+ name +:+ ">").

Section Encode.
Context `{Library}.

(** One attribute: a space, the name, and the escaped value in quotes. *)
Definition attribute (name value : string) : string :=
  " " +:+ name +:+ "=" +:+ golib.quote +:+ xml_EscapeText value +:+ golib.quote.

(** A [Url]: the element [url] around the element [loc] around the
  escaped text. *)
Definition marshalUrl (p : printer) (u : Url) : printer :=
  let p := writeStart p "url" EmptyString in
  let p := writeStart p "loc" EmptyString in
  let p := write p (xml_EscapeText (Loc u)) in
  let p := writeEnd p "loc" in
  writeEnd p "url".

(** A [Urlset]: the element [urlset] with the attribute [xmlns], around
  its [Urls] in order. *)
Definition marshalUrlset (p : printer) (v : Urlset) : printer :=
  let p := writeStart p "urlset" (attribute "xmlns" (Xmlns v)) in
  let p := fold_left marshalUrl (Urls v) p in
  writeEnd p "urlset".

Definition MarshalIndent (v : Urlset) : string * option string :=
  (buf (marshalUrlset {| buf := EmptyString; pdepth := O;
                          indentedIn := false; putNewline := false |} v),
   None).

(** [EncodeXML] *)
Definition EncodeXML (links : list Link) : string * option string :=
  let urls := List.map (fun link => {| Loc := Href link |}) links in
  let urlset :=
    {| Xmlns := "http://www.sitemaps.org/schemas/sitemap/0.9"; Urls := urls |} in
  match MarshalIndent urlset with
  | (_, Some err) => (EmptyString, Some ("marshaling XML: " +:+ err))
  | (output, None) => (xml.Header +:+ output, None)
  end.

(** The text the specification describes: one [url] element around one
  [loc] element per href, inside the [urlset] element with its namespace
  attribute, after the XML declaration. *)
Definition urlEntry (href : string) : string :=
  newline +:+ "  <url>" +:+ newline +:+ "    <loc>" +:+ xml_EscapeText href
  +:+ "</loc>" +:+ newline +:+ "  </url>".

Definition sitemap (hrefs : list string) : string :=
  xml.Header +:+ "<urlset xmlns=" +:+ golib.quote
  +:+ xml_EscapeText "http://www.sitemaps.org/schemas/sitemap/0.9"
  +:+ golib.quote +:+ ">"
  +:+ String.concat EmptyString (List.map urlEntry hrefs)
  +:+ (match hrefs with [] => EmptyString | _ => newline end)
  +:+ "</urlset>".

End Encode.

(** ** Reading the text of an element back

  What a reader of the document gets for the text that [EscapeText]
  wrote: each of the eight entities [EscapeText] writes stands for its
  character, any other byte for itself. *)
Fixpoint startsWith (prefix s : string) : bool :=
  match prefix with
  | EmptyString => true
  | String a prefix' =>
      match s with
      | EmptyString => false
      | String b s' => Ascii.eqb a b && startsWith prefix' s'
      end
  end.

Definition entities : list (string * ascii) :=
  [ ("&#34;", golib.chr 34); ("&#39;", golib.chr 39); ("&amp;", golib.chr 38);
    ("&lt;", golib.chr 60); ("&gt;", golib.chr 62); ("&#x9;", golib.chr 9);
    ("&#xA;", golib.chr 10); ("&#xD;", golib.chr 13) ].

Fixpoint entityAt (es : list (string * ascii)) (s : string) : option (string * ascii) :=
  match es with
  | [] => None
  | e :: es' => if startsWith (fst e) s then Some e else entityAt es' s
  end.

(** [skip] counts the bytes of an entity that are still to pass. *)
Fixpoint unescapeFrom (s : string) (skip : nat) : string :=
  match s with
  | EmptyString => EmptyString
  | String c rest =>
      match skip with
      | S k => unescapeFrom rest k
      | O =>
          match entityAt entities s with
          | Some (e, a) => String a (unescapeFrom rest (Nat.pred (String.length e)))
          | None => String c (unescapeFrom rest O)
          end
      end
  end.

Definition unescapeText (s : string) : string := unescapeFrom s O.

(** The ASCII characters XML can carry: the printable ones, tab, line
  feed and carriage return. *)
Definition xmlByte (c : ascii) : bool :=
  (golib.byte c <? 128)
  && ((32 <=? golib.byte c) || (golib.byte c =? 9) || (golib.byte c =? 10)
      || (golib.byte c =? 13)).

(** ** Small documents and webs for the examples *)
Module example.

Definition text (s : string) : html.Node :=
  html.mkNode html.TextNode 0%N s [] [].

Definition href (v : string) : html.Attribute :=
  html.mkAttr EmptyString "href" v.

(** An anchor element. *)
Definition a (attrs : list html.Attribute) (children : list html.Node) : html.Node :=
  html.mkNode html.ElementNode atom.A "a" attrs children.

(** Any other element; its atom only matters in that it is not
  [atom.A]. *)
Definition elem (name : string) (children : list html.Node) : html.Node :=
  html.mkNode html.ElementNode 0%N name [] children.

(** The tree [html.Parse] builds around the content of a body. *)
Definition page (body : list html.Node) : html.Node :=
  html.mkNode html.DocumentNode 0%N EmptyString []
    [ elem "html" [ elem "head" []; elem "body" body ] ].

(** A web whose pages never change: [site] lists the URLs that answer
  with status 200 and their documents; any other URL answers 404. *)
Fixpoint lookup (site : list (string * html.Node)) (u : string) : option html.Node :=
  match site with
  | [] => None
  | (u', doc) :: rest => if String.eqb u u' then Some doc else lookup rest u
  end.

Definition static (site : list (string * html.Node)) : http.Client :=
  fun _ u =>
    match lookup site u with
    | Some doc => http.Response 200 (Some doc)
    | None => http.Response 404 None
    end.

(** Three pages in a cycle: each links to the next, the last to the
  first. *)
Definition cycle3 : list (string * html.Node) :=
  [ ("https://a.com/p0", page [ a [ href "/p1" ] [ text "one" ] ]);
    ("https://a.com/p1", page [ a [ href "/p2" ] [ text "two" ] ]);
    ("https://a.com/p2", page [ a [ href "/p0" ] [ text "zero" ] ]) ].

Definition pages3 : list string :=
  [ "https://a.com/p0"; "https://a.com/p1"; "https://a.com/p2" ].

(** A home page with a dead link and a live one. *)
Definition broken : list (string * html.Node) :=
  [ ("https://a.com/", page [ a [ href "/gone" ] [ text "gone" ];
                              a [ href "/p1" ] [ text "one" ] ]);
    ("https://a.com/p1", page [ a [ href "/" ] [ text "home" ] ]) ].

End example.

(** ** Vocabulary of the specification of the crawl *)
Section CrawlSpec.
Context `{Library}.

(** The loop of [CrawlBFS] started in [st] ends: some number of
  iterations empties the queue. *)
Definition terminates (client : http.Client) (maxDepth : Z) (st : crawlState) : Prop :=
  ∃ fuel st', crawlLoop client maxDepth fuel st = Some st'.

(** The href of a queued node. *)
Definition nodeHref (n : Node) : string := Href (link n).

(** [level maxDepth K q]: the nodes of [q] have a depth that is not
  negative and at most [K] below [maxDepth]. *)
Definition level (maxDepth K : Z) (q : list Node) : Prop :=
  Forall (λ n, 0 ≤ depth n ∧ maxDepth - depth n ≤ K) q.

(** [unique st]: the hrefs of the result followed by those of the queue
  are pairwise different, and all of them are in [visited]. *)
Definition unique (st : crawlState) : Prop :=
  NoDup (List.map Href (result st) ++ List.map nodeHref (queue st))
  ∧ ∀ h, h ∈ List.map Href (result st) ++ List.map nodeHref (queue st) → h ∈ visited st.

(** [fetched st]: every URL passed to [FetchAndParse] is the href of a
  link of the result. *)
Definition fetched (st : crawlState) : Prop :=
  ∀ u, u ∈ requests st → u ∈ List.map Href (result st).

(** A web that is a cycle of pages: the URLs of [pages] are pairwise
  different, and every request for one of them, whatever was requested
  before, is answered by a document whose links are one link, to the next
  URL of [pages] (to the first, for the last). *)
Definition cycleWeb (client : http.Client) (pages : list string) : Prop :=
  NoDup pages
  ∧ ∀ (i : nat) (u : string) (requests : list string),
      pages !! i = Some u →
      ∃ doc next,
        FetchAndParse u client requests = inl doc
        ∧ pages !! ((i + 1) mod length pages)%nat = Some next
        ∧ List.map Href (ExtractLinks doc u) = [next].

(** The number of pages the crawl of a cycle of [pages] reaches with
  [maxDepth = k]: [min(N, k + 1)]. *)
Definition reach (pages : list string) (k : Z) : nat :=
  Nat.min (length pages) (Z.to_nat (k + 1)).

(** The state of the loop on a cycle of [pages] when the page of index
  [i] is the one node of the queue: the pages before it are the result, and
  they and it are the visited ones. *)
Definition cycleStage (pages : list string) (i : nat) (st : crawlState) : Prop :=
  (∀ h, h ∈ visited st ↔ h ∈ take (S i) pages)
  ∧ (∃ l, queue st = [ {| link := l; depth := Z.of_nat i |} ]
          ∧ pages !! i = Some (Href l))
  ∧ List.map Href (result st) = take i pages.

End CrawlSpec.

(** ** Standard output

  [FetchAndParse], [CrawlBFS] and [main] write to standard output.  The
  text of an error that [http.NewRequest], [client.Do] or [html.Parse]
  returns is the library's: [errorText requests url] is that text for the
  exchange for [url] made after [requests]. *)
Definition ErrorText := list string → string → string.

(** [fmt.Println] of one string, or of strings already joined by
  spaces. *)
Definition Println (s : string) : string := s +:+ newline.

Section Stdout.
Context `{Library}.
Variable client : http.Client.
Variable errorText : ErrorText.

(** [Error()] of the error [FetchAndParse] returns: the library's text
  or the status code, wrapped by [fmt.Errorf]. *)
Definition errorOf (url : string) (requests : list string) (e : FetchError)
    : string :=
  match e with
  | CreatingRequest =>
      "creating request for URL " +:+ url +:+ ": " +:+ errorText requests url
  | FetchingURL => "fetching URL " +:+ url +:+ ": " +:+ errorText requests url
  | ReceivedStatusCode code =>
      "fetching URL " +:+ url +:+ ": received status code " +:+ pretty code
  | ParsingHTML => "parsing HTML from " +:+ url +:+ ": " +:+ errorText requests url
  end.

(** What [FetchAndParse] prints before it returns the error [e]: a line
  when the request could not be created or the body not parsed. *)
Definition fetchStdout (url : string) (requests : list string) (e : FetchError)
    : string :=
  match e with
  | CreatingRequest => Println ("Error creating request: " +:+ errorText requests url)
  | ParsingHTML => Println ("Error parsing HTML: " +:+ errorText requests url)
  | _ => EmptyString
  end.

(** What the call [FetchAndParse(href, client)] in the loop of [CrawlBFS]
  and the branch [err != nil] after it print: nothing when the fetch
  succeeds, the line of [FetchAndParse] and the warning when it fails. *)
Definition warningOf (requests : list string) (href : string) : string :=
  match FetchAndParse href client requests with
  | inl _ => EmptyString
  | inr e =>
      fetchStdout href requests e
      +:+ "Warning: Failed to fetch " +:+ href +:+ ": "
      +:+ errorOf href requests e +:+ newline
  end.

Variable maxDepth : Z.

(** What one iteration of the loop of [CrawlBFS] prints. *)
Definition stepStdout (st : crawlState) : string :=
  match queue st with
  | [] => EmptyString
  | currentNode :: _ =>
      if depth currentNode >=? maxDepth then EmptyString
      else warningOf (requests st) (Href (link currentNode))
  end.

(** What the loop prints in [fuel] iterations. *)
Fixpoint loopStdout (fuel : nat) (st : crawlState) : string :=
  match queue st with
  | [] => EmptyString
  | _ :: _ =>
      match fuel with
      | O => EmptyString
      | S fuel' => stepStdout st +:+ loopStdout fuel' (crawlStep client maxDepth st)
      end
  end.

(** What a sequence of requests prints when it is made after the
  requests [before]: the lines of those that fail. *)
Fixpoint warningLines (before urls : list string) : string :=
  match urls with
  | [] => EmptyString
  | u :: rest => warningOf before u +:+ warningLines (before ++ [ u ]) rest
  end.

End Stdout.

(** What [CrawlBFS] prints. *)
Definition CrawlBFS_stdout `{Library} (fuel : nat) (links : list Link)
    (maxDepth : Z) (client : http.Client) (errorText : ErrorText) : string :=
  match links with
  | [] => EmptyString
  | links_0 :: _ =>
      loopStdout client errorText maxDepth fuel
        {| visited := {[ Href links_0 ]};
           queue := [ {| link := links_0; depth := 0 |} ];
           result := []; requests := [] |}
  end.

(** ** The program [main]

  [main] fetches the page at the URL of the flag [-url], takes the
  internal links of that page as the seed of [CrawlBFS] with the depth of
  the flag [-depth], and prints the sitemap of what the crawl returns.  The
  two flags are parameters here, and so is the client ([main] builds one
  with a timeout of ten seconds).  A [Run] is what a run of [main] leaves
  behind: all it wrote to standard output, and the URLs it has passed to
  [FetchAndParse], in order. *)
Record Run := mkRun { stdout : string; fetchedURLs : list string }.

(** The three lines [main] prints first. *)
Definition header (urlPtr : string) (maxDepth : Z) : string :=
  Println ("Max Depth: " +:+ pretty maxDepth)
  +:+ Println ("Fetching URL: " +:+ urlPtr)
  +:+ Println "--------------------------------------------------------------------------".

Section Main.
Context `{Library}.

(** [main].  The client has answered the request for [urlPtr] when
  [CrawlBFS] starts, so the crawl sees the client after that request. *)
Definition main (fuel : nat) (urlPtr : string) (maxDepth : Z)
    (client : http.Client) (errorText : ErrorText) : option Run :=
  match FetchAndParse urlPtr client [] with
  | inr e =>
      Some {| stdout := header urlPtr maxDepth
                        +:+ fetchStdout errorText urlPtr [] e
                        +:+ Println ("Error: " +:+ errorOf errorText urlPtr [] e);
              fetchedURLs := [ urlPtr ] |}
  | inl doc =>
      let baseDomain := urlPtr in
      let initialLinks := ExtractLinks doc baseDomain in
      let client' := fun requests => client (urlPtr :: requests) in
      let errorText' := fun requests => errorText (urlPtr :: requests) in
      match CrawlBFS fuel initialLinks maxDepth client' with
      | None => None
      | Some out =>
          let printed :=
            header urlPtr maxDepth
            +:+ CrawlBFS_stdout fuel initialLinks maxDepth client' errorText' in
          match err out with
          | Some e =>
              Some {| stdout := printed +:+ Println ("Error during crawling: " +:+ e);
                      fetchedURLs := urlPtr :: fetches out |}
          | None =>
              match EncodeXML (returned out) with
              | (_, Some e) =>
                  Some {| stdout := printed +:+ Println ("Error encoding XML: " +:+ e);
                          fetchedURLs := urlPtr :: fetches out |}
              | (sitemapXML, None) =>
                  Some {| stdout := printed +:+ Println sitemapXML;
                          fetchedURLs := urlPtr :: fetches out |}
              end
          end
      end
  end.

End Main.

(** ** Vocabulary for further properties *)

(** The nodes whose text [extractText] reads: text nodes and element
  nodes. *)
Definition textual (n : html.Node) : bool :=
  match html.Type_ n with
  | html.TextNode | html.ElementNode => true
  | _ => false
  end.

(** A tree without its comments, doctypes and other nodes that are
  neither text nor element, at every level below the root. *)
Fixpoint strip (n : html.Node) : html.Node :=
  match n with
  | html.mkNode type dataAtom data attr children =>
      html.mkNode type dataAtom data attr
        ((fix keep (cs : list html.Node) : list html.Node :=
            match cs with
            | [] => []
            | c :: cs' => if textual c then strip c :: keep cs' else keep cs'
            end) children)
  end.

(** The number of anchor elements of a document. *)
Definition countAnchors (doc : html.Node) : nat :=
  length (List.filter isAnchor (preorder doc)).

Section Levels.
Context `{Library}.
Variable client : http.Client.

(** A client whose answer for a URL does not depend on the requests
  made before. *)
Definition staticClient : Prop :=
  ∀ (requests : list string) (u : string), client requests u = client [] u.

(** The links of the page at [u], none when the fetch fails. *)
Definition neighborsOf (u : string) : list Link :=
  match FetchAndParse u client [] with
  | inl doc => ExtractLinks doc u
  | inr _ => []
  end.

(** Breadth-first search level by level.  [discover] adds to [next] the
  links of one page that are not visited yet; [expand] does so for the
  pages of a whole level [frontier], in order; [levels k] is the level
  [frontier] followed by the [k] levels below it. *)
Fixpoint discover (neighbors : list Link) (visited : gset string)
    (next : list Link) : gset string * list Link :=
  match neighbors with
  | [] => (visited, next)
  | neighbor :: rest =>
      if decide (Href neighbor ∈ visited) then discover rest visited next
      else discover rest ({[ Href neighbor ]} ∪ visited) (next ++ [ neighbor ])
  end.

Fixpoint expand (frontier : list Link) (visited : gset string)
    (next : list Link) : gset string * list Link :=
  match frontier with
  | [] => (visited, next)
  | l :: rest =>
      let '(visited', next') := discover (neighborsOf (Href l)) visited next in
      expand rest visited' next'
  end.

Fixpoint levels (k : nat) (visited : gset string) (frontier : list Link)
    : list Link :=
  match k with
  | O => frontier
  | S k' =>
      let '(visited', next) := expand frontier visited [] in
      frontier ++ levels k' visited' next
  end.

(** The URLs of the levels that are expanded: all but the last. *)
Fixpoint fetchedLevels (k : nat) (visited : gset string) (frontier : list Link)
    : list string :=
  match k with
  | O => []
  | S k' =>
      let '(visited', next) := expand frontier visited [] in
      List.map Href frontier ++ fetchedLevels k' visited' next
  end.

(** [hops n u v]: [v] is reached from [u] by following [n] links, each
  one a link of the page it is followed from. *)
Inductive hops : nat → string → string → Prop :=
| hops_here (u : string) : hops O u u
| hops_step (n : nat) (u w v : string) :
    w ∈ List.map Href (neighborsOf u) → hops n w v → hops (S n) u v.

(** [closed V F]: the links of the level [F] are visited, and the pages
  that are visited and not of the level have their links visited. *)
Definition closed (V : gset string) (F : list Link) : Prop :=
  (∀ f, f ∈ F → Href f ∈ V)
  ∧ (∀ u w, u ∈ V → u ∉ List.map Href F →
            w ∈ List.map Href (neighborsOf u) → w ∈ V).

End Levels.

(** Before the first iteration the seed is at the front of the queue;
  from then on it is at the front of the result. *)
Definition seedFirst (links_0 : Link) (st : crawlState) : Prop :=
  (result st = [] ∧ ∃ d q, queue st = {| link := links_0; depth := d |} :: q)
  ∨ (∃ tail, result st = links_0 :: tail).

(** The requests are, in order, hrefs of the result. *)
Definition requestsInResult (st : crawlState) : Prop :=
  requests st `sublist_of` List.map Href (result st).

(** [found client seed st]: every link of the result and of the queue is
  the seed, or a link [ExtractLinks] gave for the document the crawl
  received for one of its requests: the request for [u], made after the
  requests [before]. *)
Definition found `{Library} (client : http.Client) (seed : Link)
    (st : crawlState) : Prop :=
  ∀ l, l ∈ result st ++ List.map link (queue st) →
       l = seed
       ∨ ∃ before u after doc,
           requests st = before ++ u :: after
           ∧ FetchAndParse u client before = inl doc
           ∧ l ∈ ExtractLinks doc u.

(** A queued node of depth [d]. *)
Definition nodeAt (d : nat) (l : Link) : Node :=
  {| link := l; depth := Z.of_nat d |}.

(** * Properties *)

(** ** Link extraction as a fold over the anchors of the document *)

(** Induction on a tree whose children are themselves trees. *)
Lemma Node_tree_ind (P : html.Node → Prop) :
  (∀ t a d attrs cs, Forall P cs → P (html.mkNode t a d attrs cs)) →
  ∀ n, P n.
Proof.
  intros step. fix rec 1. intros [t a d attrs cs]. apply step.
  induction cs as [|c cs IH]; constructor; [apply rec | exact IH].
Qed.

Section ExtractFacts.
Context `{Library}.

Lemma walkAttrs_record node baseDomain attrs st :
  walkAttrs node baseDomain attrs st =
  match firstInternalHref baseDomain attrs with
  | Some raw => record st {| Href := absolute baseDomain raw;
                             Text := strings_TrimSpace (extractText node) |}
  | None => st
  end.
Proof.
  induction attrs as [|attr rest IH]; simpl; [done|].
  unfold isHref. destruct (_ && _); [|exact IH].
  unfold record, absolute. simpl. by destruct (decide _).
Qed.

Lemma walk_unfold baseDomain t a d attrs cs st :
  walk baseDomain (html.mkNode t a d attrs cs) st =
  fold_left (fun st child => walk baseDomain child st) cs
    (if isAnchor (html.mkNode t a d attrs cs)
     then walkAttrs (html.mkNode t a d attrs cs) baseDomain attrs st else st).
Proof. reflexivity. Qed.

Lemma walk_candidates baseDomain n :
  ∀ st, walk baseDomain n st = fold_left record (candidates baseDomain n) st.
Proof.
  induction n as [t a d attrs cs IH] using Node_tree_ind. intros st.
  rewrite walk_unfold. unfold candidates.
  change (preorder (html.mkNode t a d attrs cs))
    with (html.mkNode t a d attrs cs :: List.concat (List.map preorder cs)).
  set (node := html.mkNode t a d attrs cs).
  change (omap (anchorLink baseDomain) (node :: List.concat (List.map preorder cs)))
    with (match anchorLink baseDomain node with
          | Some l => l :: omap (anchorLink baseDomain) (List.concat (List.map preorder cs))
          | None => omap (anchorLink baseDomain) (List.concat (List.map preorder cs))
          end).
  assert (Hhead :
    (if isAnchor node then walkAttrs node baseDomain attrs st else st) =
    fold_left record (option_list (anchorLink baseDomain node)) st).
  { unfold anchorLink. destruct (isAnchor node); [|done].
    rewrite walkAttrs_record. simpl html.Attr.
    by destruct (firstInternalHref baseDomain attrs). }
  rewrite Hhead. clear Hhead.
  assert (Htail : ∀ st',
    fold_left (fun st child => walk baseDomain child st) cs st' =
    fold_left record (omap (anchorLink baseDomain)
                        (List.concat (List.map preorder cs))) st').
  { induction IH as [|c cs Hc _ IHcs]; intros st'; [done|].
    simpl. rewrite omap_app, fold_left_app, Hc. apply IHcs. }
  rewrite Htail. destruct (anchorLink baseDomain node); simpl; done.
Qed.

(** What a sequence of [record] steps does to the two variables. *)
Lemma record_fold_seen ls : ∀ st h,
  h ∈ seen (fold_left record ls st) ↔ h ∈ seen st ∨ h ∈ map Href ls.
Proof.
  induction ls as [|l ls IH]; intros st h; simpl.
  - rewrite elem_of_nil. tauto.
  - rewrite IH, elem_of_cons. unfold record.
    destruct (decide (Href l ∈ seen st)) as [Hin|Hout]; simpl.
    + split; [tauto|]. intros [?|[->|?]]; auto.
    + rewrite elem_of_union, elem_of_singleton. tauto.
Qed.

Lemma record_fold_links ls : ∀ st,
  ∃ new, links (fold_left record ls st) = links st ++ new
    ∧ NoDup (map Href new)
    ∧ (∀ l, l ∈ new → Href l ∉ seen st)
    ∧ (∀ l, l ∈ new ↔ (∃ pre post, ls = pre ++ l :: post
                         ∧ (Href l ∉ seen st) ∧ (Href l ∉ map Href pre))).
Proof.
  induction ls as [|l ls IH]; intros st; simpl.
  - exists []. rewrite app_nil_r. split_and!; [done|constructor|set_solver|].
    intros l. rewrite elem_of_nil. split; [done|].
    intros (pre & post & Heq & _). by destruct pre.
  - destruct (IH (record st l)) as (new & Hl & Hnd & Hns & Hchar).
    unfold record in *. destruct (decide (Href l ∈ seen st)) as [Hin|Hout].
    + exists new. split_and!; [done..|].
      intros l'. rewrite Hchar. split.
      * intros (pre & post & -> & Hs & Hp). exists (l :: pre), post.
        split_and!; [done..|]. simpl. rewrite elem_of_cons.
        intros [Heq|?]; [|done]. apply Hs. by rewrite Heq.
      * intros (pre & post & Heq & Hs & Hp). destruct pre as [|p pre].
        { simplify_eq/=. done. }
        simplify_eq/=. exists pre, post. split_and!; [done..|].
        intros ?. apply Hp. by right.
    + simpl in *. exists (l :: new). rewrite Hl, <- app_assoc. simpl.
      split_and!; [done| | |].
      * constructor; [|done]. rewrite list_elem_of_fmap.
        intros (l' & Heq & Hin'). apply (Hns _ Hin'). rewrite <- Heq. set_solver.
      * intros l' [->|Hin']%elem_of_cons; [done|].
        specialize (Hns _ Hin'). set_solver.
      * intros l'. rewrite elem_of_cons, Hchar. split.
        -- intros [->|(pre & post & -> & Hs & Hp)].
           ++ exists [], ls. split_and!; [done..|]. simpl. apply not_elem_of_nil.
           ++ exists (l :: pre), post. split_and!; [done|set_solver|].
              simpl. rewrite elem_of_cons. set_solver.
        -- intros (pre & post & Heq & Hs & Hp). destruct pre as [|p pre].
           { simplify_eq/=. by left. }
           simplify_eq/=. right. exists pre, post.
           rewrite elem_of_cons in Hp. split_and!; [done|set_solver|tauto].
Qed.

Lemma record_fold_index ls : ∀ st,
  (∀ h, h ∈ seen st ↔ h ∈ map Href (links st)) →
  ∀ h, h ∈ seen (fold_left record ls st)
       ↔ h ∈ map Href (links (fold_left record ls st)).
Proof.
  induction ls as [|l ls IH]; intros st Hst; simpl; [done|].
  apply IH. intros h. unfold record.
  destruct (decide (Href l ∈ seen st)); simpl; [done|].
  rewrite map_app, elem_of_app, elem_of_union, <- Hst. simpl.
  rewrite elem_of_singleton, list_elem_of_singleton. tauto.
Qed.

(** [ExtractLinks] records the candidates in document order, starting
  from nothing seen. *)
Lemma ExtractLinks_candidates doc baseDomain :
  ExtractLinks doc baseDomain =
  links (fold_left record (candidates baseDomain doc) {| seen := ∅; links := [] |}).
Proof. unfold ExtractLinks. by rewrite walk_candidates. Qed.

Lemma ExtractLinks_NoDup doc baseDomain :
  NoDup (map Href (ExtractLinks doc baseDomain)).
Proof.
  rewrite ExtractLinks_candidates.
  destruct (record_fold_links (candidates baseDomain doc) {| seen := ∅; links := [] |})
    as (new & -> & Hnd & _). done.
Qed.

Lemma ExtractLinks_first doc baseDomain l :
  l ∈ ExtractLinks doc baseDomain ↔
  ∃ pre post, candidates baseDomain doc = pre ++ l :: post
              ∧ (Href l ∉ map Href pre).
Proof.
  rewrite ExtractLinks_candidates.
  destruct (record_fold_links (candidates baseDomain doc) {| seen := ∅; links := [] |})
    as (new & -> & _ & _ & Hchar). simpl. rewrite Hchar.
  split; intros (pre & post & Heq & Hrest); exists pre, post.
  - tauto.
  - split_and!; [tauto|apply not_elem_of_empty|tauto].
Qed.

Lemma ExtractLinks_hrefs doc baseDomain h :
  h ∈ map Href (ExtractLinks doc baseDomain) ↔
  h ∈ map Href (candidates baseDomain doc).
Proof.
  rewrite ExtractLinks_candidates.
  rewrite <- record_fold_index.
  - rewrite record_fold_seen. simpl. set_solver.
  - intros h'. simpl. set_solver.
Qed.

Lemma firstInternalHref_Some baseDomain attrs raw :
  firstInternalHref baseDomain attrs = Some raw →
  ∃ attr, attr ∈ attrs ∧ isHref attr = true ∧ html.Val attr = raw
          ∧ isInternalLink raw baseDomain = true.
Proof.
  induction attrs as [|attr rest IH]; simpl; [done|].
  destruct (isHref attr && isInternalLink (html.Val attr) baseDomain) eqn:E.
  - intros [= <-]. apply andb_true_iff in E as [? ?].
    exists attr. split_and!; [left|done..].
  - intros (attr' & ? & ?)%IH. exists attr'. split; [by right|done].
Qed.

Lemma firstInternalHref_single baseDomain attrs attr :
  filter (λ a, isHref a = true) attrs = [attr] →
  firstInternalHref baseDomain attrs =
  if isInternalLink (html.Val attr) baseDomain then Some (html.Val attr) else None.
Proof.
  induction attrs as [|a rest IH]; simpl; [done|].
  rewrite filter_cons. destruct (decide (isHref a = true)) as [Ha|Ha].
  - intros [= -> Hrest]. rewrite Ha. simpl.
    destruct (isInternalLink (html.Val attr) baseDomain); [done|].
    clear IH. induction rest as [|b rest IH]; simpl; [done|].
    rewrite filter_cons in Hrest. destruct (decide (isHref b = true)); [done|].
    destruct (isHref b); [done|]. simpl. by apply IH.
  - intros Hrest. destruct (isHref a); [done|]. simpl. by apply IH.
Qed.

Lemma candidates_hrefs doc baseDomain h :
  h ∈ map Href (candidates baseDomain doc) ↔
  ∃ a raw, a ∈ preorder doc ∧ isAnchor a = true
           ∧ firstInternalHref baseDomain (html.Attr a) = Some raw
           ∧ h = absolute baseDomain raw.
Proof.
  unfold candidates. rewrite list_elem_of_fmap. split.
  - intros (l & -> & Hl). apply list_elem_of_omap in Hl as (a & Ha & Hlink).
    unfold anchorLink in Hlink. destruct (isAnchor a) eqn:Hanchor; [|done].
    destruct (firstInternalHref baseDomain (html.Attr a)) as [raw|] eqn:Hraw; [|done].
    simplify_eq. by exists a, raw.
  - intros (a & raw & Ha & Hanchor & Hraw & ->).
    exists {| Href := absolute baseDomain raw;
              Text := strings_TrimSpace (extractText a) |}.
    split; [done|]. apply list_elem_of_omap. exists a. split; [done|].
    unfold anchorLink. by rewrite Hanchor, Hraw.
Qed.

End ExtractFacts.

(** ** URL resolution *)

(** [ExtractLinks] passes to [resolveURL] only hrefs that start with a
  slash, and such an href has no scheme: in [ExtractLinks] the branch of
  [resolveURL] for absolute hrefs is never taken. *)
Lemma setPath_Scheme (u u' : url.URL) (p : string) :
  golib.setPath u p = Some u' → url.Scheme u' = url.Scheme u.
Proof.
  unfold golib.setPath. destruct (golib.unescape p golib.encodePath); [|done].
  by intros [= <-].
Qed.

Lemma setFragment_Scheme (u u' : url.URL) (f : string) :
  golib.setFragment u f = Some u' → url.Scheme u' = url.Scheme u.
Proof.
  unfold golib.setFragment. destruct (golib.unescape f golib.encodeFragment); [|done].
  by intros [= <-].
Qed.

Lemma parse_slash_Scheme (s : string) (u : url.URL) :
  golib.parse (String "/" s) = Some u → url.Scheme u = EmptyString.
Proof.
  unfold golib.parse.
  destruct (golib.stringContainsCTLByte _); [done|].
  change (String.eqb (String "/" s) "*") with false. cbv iota.
  change (golib.getScheme (String "/" s)) with (Some (EmptyString, String "/" s)).
  cbv iota beta zeta.
  change (golib.ToLower EmptyString) with EmptyString.
  repeat match goal with
  | |- context [ if ?c then _ else _ ] => destruct c
  | |- context [ let '(_, _) := ?p in _ ] => destruct p
  | |- context [ match ?o with Some _ => _ | None => _ end ] => destruct o eqn:?
  end; try discriminate; try (intros [= <-]; reflexivity);
  try (intros Hs; apply setPath_Scheme in Hs; exact Hs).
Qed.

Lemma Parse_slash_not_absolute (s : string) (u : url.URL) :
  golib.Parse (String "/" s) = Some u → url.IsAbs u = false.
Proof.
  unfold golib.Parse. destruct (golib.containsByte "%" _); [done|].
  cbn [golib.Cut]. change (Ascii.eqb "/" "#") with false. cbv iota.
  destruct (golib.Cut s "#") as [[before after] found].
  destruct (golib.parse (String "/" before)) as [v|] eqn:Hparse; [|done].
  apply parse_slash_Scheme in Hparse.
  destruct (golib.nonEmpty after).
  - intros Hfrag%setFragment_Scheme. unfold url.IsAbs. by rewrite Hfrag, Hparse.
  - intros [= <-]. unfold url.IsAbs. by rewrite Hparse.
Qed.


(** ** Link extraction *)

(** C7.  The attribute loop does not stop at the first [href] attribute
  when that one fails the internal-link test: on an anchor whose first
  [href] is external and whose second is [/y], the second contributes a
  link. *)
Theorem ExtractLinks_later_href_used :
  let anchor := example.a [ example.href "https://other.com/x"; example.href "/y" ]
                          [ example.text "t" ] in
  @isInternalLink "https://other.com/x" "https://a.com" = false
  ∧ @ExtractLinks golib.lib (example.page [ anchor ]) "https://a.com"
    = [ {| Href := "https://a.com/y"; Text := "t" |} ].
Proof. split; vm_compute; reflexivity. Qed.

(** An anchor without any [href] attribute yields no link. *)
Lemma anchorLink_no_href `{Library} (baseDomain : string) (n : html.Node) :
  filter (λ a, isHref a = true) (html.Attr n) = [] →
  anchorLink baseDomain n = None.
Proof.
  intros Hnone. unfold anchorLink. destruct (isAnchor n); [|done].
  enough (firstInternalHref baseDomain (html.Attr n) = None) as -> by done.
  induction (html.Attr n) as [|a rest IH]; simpl; [done|].
  rewrite filter_cons in Hnone. destruct (decide (isHref a = true)); [done|].
  destruct (isHref a); [done|]. simpl. by apply IH.
Qed.

(** C8.  The links of a page have pairwise different hrefs; every href
  an anchor of the page yields occurs among them, in exactly one link; and
  a link is in the result exactly when it is what the first anchor, in
  document order, with that href yields (so it carries that anchor's
  text). *)
Theorem ExtractLinks_dedup_first_wins `{Library}
    (doc : html.Node) (baseDomain : string) :
  let out := ExtractLinks doc baseDomain in
  let cands := candidates baseDomain doc in
  NoDup (map Href out)
  ∧ (∀ c, c ∈ cands →
       ∃ l, l ∈ out ∧ Href l = Href c
            ∧ ∀ l', l' ∈ out → Href l' = Href c → l' = l)
  ∧ (∀ l, l ∈ out ↔
       ∃ pre post, cands = pre ++ l :: post ∧ (Href l ∉ map Href pre)).
Proof.
  intros out cands. split_and!.
  - apply ExtractLinks_NoDup.
  - intros c Hc.
    assert (Href c ∈ map Href out) as Hin.
    { apply ExtractLinks_hrefs. apply list_elem_of_fmap. by exists c. }
    apply list_elem_of_fmap in Hin as (l & Heq & Hl).
    exists l. split_and!; [done..|].
    intros l' Hl' Heq'.
    pose proof (ExtractLinks_NoDup doc baseDomain) as Hnd. fold out in Hnd.
    apply list_elem_of_lookup in Hl as [i Hi].
    apply list_elem_of_lookup in Hl' as [j Hj].
    assert (i = j) as ->.
    { eapply NoDup_lookup; [exact Hnd| |].
      - rewrite list_lookup_fmap, Hi. reflexivity.
      - rewrite list_lookup_fmap, Hj. simpl. congruence. }
    congruence.
  - intros l. apply ExtractLinks_first.
Qed.

(** C9.  The filter is the disjunction of two prefix tests.  The hrefs
  of the result are exactly those of the attributes at which the attribute
  loop of some anchor stops; for an anchor with one [href] attribute, the
  anchor yields a link exactly when the value starts with a slash or with
  [baseDomain], and then the absolute form of the value is in the result.
  With [baseDomain] [https://a.com], the href [https://other.com/x] is
  left out and [/x] is kept as [https://a.com/x]. *)
Theorem internal_link_filter `{Library} (doc : html.Node) (baseDomain : string)
    (a : html.Node) (attr : html.Attribute) :
  a ∈ preorder doc →
  isAnchor a = true →
  filter (λ x, isHref x = true) (html.Attr a) = [attr] →
  let raw := html.Val attr in
  (∀ link, isInternalLink link baseDomain = true
           ↔ HasPrefix link "/" = true ∨ HasPrefix link baseDomain = true)
  ∧ (∀ h, h ∈ map Href (ExtractLinks doc baseDomain) ↔
       ∃ a' raw', a' ∈ preorder doc ∧ isAnchor a' = true
         ∧ firstInternalHref baseDomain (html.Attr a') = Some raw'
         ∧ h = absolute baseDomain raw')
  ∧ (is_Some (anchorLink baseDomain a)
       ↔ HasPrefix raw "/" = true ∨ HasPrefix raw baseDomain = true)
  ∧ (HasPrefix raw "/" = true ∨ HasPrefix raw baseDomain = true →
       absolute baseDomain raw ∈ map Href (ExtractLinks doc baseDomain))
  ∧ @ExtractLinks golib.lib
      (example.page [ example.a [ example.href "https://other.com/x" ]
                        [ example.text "out" ] ]) "https://a.com" = []
  ∧ @ExtractLinks golib.lib
      (example.page [ example.a [ example.href "/x" ] [ example.text "in" ] ])
      "https://a.com" = [ {| Href := "https://a.com/x"; Text := "in" |} ].
Proof.
  intros Ha Hanchor Hsingle raw.
  assert (Hfilter : ∀ link, isInternalLink link baseDomain = true
            ↔ HasPrefix link "/" = true ∨ HasPrefix link baseDomain = true).
  { intros link. unfold isInternalLink. apply orb_true_iff. }
  pose proof (firstInternalHref_single baseDomain _ _ Hsingle) as Hfirst.
  fold raw in Hfirst.
  split_and!.
  - exact Hfilter.
  - intros h. rewrite ExtractLinks_hrefs. apply candidates_hrefs.
  - rewrite <- Hfilter. unfold anchorLink. rewrite Hanchor, Hfirst.
    destruct (isInternalLink raw baseDomain); split; intros Hx;
      try done; by inversion Hx.
  - intros Hint%Hfilter. rewrite ExtractLinks_hrefs. apply candidates_hrefs.
    exists a, raw. rewrite Hfirst, Hint. done.
  - vm_compute. reflexivity.
  - vm_compute. reflexivity.
Qed.

Lemma internal_link_filter_witness :
  is_Some (@anchorLink golib.lib "https://a.com"
             (example.a [ example.href "/x" ] [ example.text "in" ]))
  ∧ "https://a.com/x" ∈
      map Href (@ExtractLinks golib.lib
                  (example.page [ example.a [ example.href "/x" ]
                                    [ example.text "in" ] ]) "https://a.com").
Proof.
  pose proof (@internal_link_filter golib.lib
    (example.page [ example.a [ example.href "/x" ] [ example.text "in" ] ])
    "https://a.com"
    (example.a [ example.href "/x" ] [ example.text "in" ])
    (example.href "/x")) as Hthm.
  destruct Hthm as (_ & _ & Hyield & Hkept & _).
  - vm_compute. do 4 right. left.
  - vm_compute. reflexivity.
  - vm_compute. reflexivity.
  - split.
    + apply Hyield. left. vm_compute. reflexivity.
    + apply Hkept. left. vm_compute. reflexivity.
Defined.

(** ** The sitemap encoder *)

Lemma append_nil_l (s : string) : EmptyString +:+ s = s.
Proof. reflexivity. Qed.

Lemma append_cons (c : ascii) (s t : string) :
  String c s +:+ t = String c (s +:+ t).
Proof. reflexivity. Qed.

Lemma append_nil_r (s : string) : s +:+ EmptyString = s.
Proof. induction s as [|c s IH]; [done|]. by rewrite append_cons, IH. Qed.

Lemma append_assoc (s t u : string) : (s +:+ t) +:+ u = s +:+ (t +:+ u).
Proof. induction s as [|c s IH]; [done|]. by rewrite !append_cons, IH. Qed.

Ltac string_norm :=
  repeat first [ rewrite append_assoc | rewrite append_cons
               | rewrite append_nil_l | rewrite append_nil_r ].

(** The printer's primitives on an explicit state that has written
  something ([putNewline] holds). *)
Lemma writeStart_state (b : string) (d : nat) (i : bool) (name attrs : string) :
  writeStart {| buf := b; pdepth := d; indentedIn := i; putNewline := true |} name attrs
  = {| buf := b +:+ newline +:+ repeatString indent d +:+ "<" +:+ name +:+ attrs +:+ ">";
       pdepth := S d; indentedIn := true; putNewline := true |}.
Proof.
  unfold writeStart, writeIndentIn, write. cbn [buf pdepth indentedIn putNewline].
  f_equal. by rewrite !append_assoc.
Qed.

Lemma writeEnd_leaf (b : string) (d : nat) (n : bool) (name : string) :
  writeEnd {| buf := b; pdepth := d; indentedIn := true; putNewline := n |} name
  = {| buf := b +:+ "</" +:+ name +:+ ">";
       pdepth := Nat.pred d; indentedIn := false; putNewline := n |}.
Proof. reflexivity. Qed.

Lemma writeEnd_state (b : string) (d : nat) (name : string) :
  writeEnd {| buf := b; pdepth := d; indentedIn := false; putNewline := true |} name
  = {| buf := b +:+ newline +:+ repeatString indent (Nat.pred d) +:+ "</" +:+ name +:+ ">";
       pdepth := Nat.pred d; indentedIn := false; putNewline := true |}.
Proof.
  unfold writeEnd, writeIndentOut, write. cbn [buf pdepth indentedIn putNewline].
  f_equal. by rewrite !append_assoc.
Qed.

Lemma write_state (b : string) (d : nat) (i n : bool) (s : string) :
  write {| buf := b; pdepth := d; indentedIn := i; putNewline := n |} s
  = {| buf := b +:+ s; pdepth := d; indentedIn := i; putNewline := n |}.
Proof. reflexivity. Qed.

Section EncodeFacts.
Context `{Library}.

(** One [Url] between two siblings or after the start tag of the root:
  the printer is at depth 1 and has written something. *)
Lemma marshalUrl_entry (p : printer) (u : Url) :
  pdepth p = 1%nat → putNewline p = true →
  marshalUrl p u =
  {| buf := buf p +:+ urlEntry (Loc u); pdepth := 1%nat;
     indentedIn := false; putNewline := true |}.
Proof.
  destruct p as [b d i n]. cbn [buf pdepth putNewline]. intros -> ->.
  unfold marshalUrl. cbv zeta.
  rewrite !writeStart_state, write_state, writeEnd_leaf, writeEnd_state.
  f_equal. unfold urlEntry, indent, newline. cbn [Nat.pred repeatString].
  string_norm. reflexivity.
Qed.

Lemma marshalUrls_entries (urls : list Url) : ∀ p,
  pdepth p = 1%nat → putNewline p = true →
  fold_left marshalUrl urls p =
  match urls with
  | [] => p
  | _ => {| buf := buf p +:+ String.concat EmptyString (List.map (λ u, urlEntry (Loc u)) urls);
            pdepth := 1%nat; indentedIn := false; putNewline := true |}
  end.
Proof.
  induction urls as [|u urls IH]; intros p Hd Hn; [done|].
  cbn [fold_left]. rewrite marshalUrl_entry by done.
  rewrite IH by done. destruct urls as [|u' urls].
  - cbn [List.map String.concat]. by rewrite ?append_nil_r.
  - f_equal. cbn [buf List.map]. by rewrite append_assoc.
Qed.

Lemma marshalUrlset_text (v : Urlset) :
  buf (marshalUrlset {| buf := EmptyString; pdepth := O;
                        indentedIn := false; putNewline := false |} v)
  = "<urlset" +:+ attribute "xmlns" (Xmlns v) +:+ ">"
    +:+ String.concat EmptyString (List.map (λ u, urlEntry (Loc u)) (Urls v))
    +:+ (match Urls v with [] => EmptyString | _ => newline end)
    +:+ "</urlset>".
Proof.
  unfold marshalUrlset. cbv zeta.
  assert (Hstart : writeStart {| buf := EmptyString; pdepth := O;
                      indentedIn := false; putNewline := false |}
                     "urlset" (attribute "xmlns" (Xmlns v))
          = {| buf := "<urlset" +:+ attribute "xmlns" (Xmlns v) +:+ ">";
               pdepth := 1%nat; indentedIn := true; putNewline := true |})
    by reflexivity.
  rewrite Hstart, marshalUrls_entries by done.
  destruct (Urls v) as [|u urls].
  - rewrite writeEnd_leaf. cbn [buf List.map String.concat].
    by rewrite !append_assoc.
  - rewrite writeEnd_state. cbn [buf Nat.pred repeatString].
    by rewrite !append_assoc.
Qed.

End EncodeFacts.

(** Printable ASCII text without the five special characters is
  written as it is. *)
Lemma EscapeText_plain (s : string) :
  golib.sforall golib.plainByte s = true → golib.EscapeText s = s.
Proof.
  unfold golib.sforall, golib.EscapeText.
  induction s as [|c s IH]; [done|].
  cbn [String.list_ascii_of_string forallb List.map String.concat].
  intros [Hc Hs]%andb_true_iff. specialize (IH Hs).
  assert (Hbyte : golib.escapeByte c = String c EmptyString).
  { unfold golib.plainByte in Hc. unfold golib.escapeByte.
    repeat match goal with
           | |- context [ (?a =? ?b) ] => destruct (Z.eqb_spec a b); [exfalso|]
           | |- context [ (?a <? ?b) ] => destruct (Z.ltb_spec a b); [exfalso|]
           end; try reflexivity;
    repeat match goal with
           | H : _ && _ = true |- _ => apply andb_true_iff in H as [? ?]
           | H : negb _ = true |- _ => apply negb_true_iff in H
           | H : _ || _ = false |- _ => apply orb_false_iff in H as [? ?]
           end; lia. }
  rewrite Hbyte. destruct s as [|c' s'].
  - reflexivity.
  - cbn [String.list_ascii_of_string List.map] in IH |- *.
    change (String.concat EmptyString (?x :: ?y :: ?l))
      with (x +:+ EmptyString +:+ String.concat EmptyString (y :: l)).
    rewrite IH. reflexivity.
Qed.

Lemma concat_empty_cons (x : string) (l : list string) :
  String.concat EmptyString (x :: l) = x +:+ String.concat EmptyString l.
Proof. destruct l; cbn [String.concat]; [by rewrite append_nil_r|done]. Qed.

(** Text of ASCII characters XML can carry reads back as it was. *)
Lemma unescape_escapeByte (c : ascii) (t : string) :
  xmlByte c = true →
  unescapeFrom (golib.escapeByte c +:+ t) O = String c (unescapeFrom t O).
Proof.
  destruct c as [[] [] [] [] [] [] [] []]; intros Hc;
    first [ discriminate Hc | reflexivity ].
Qed.

Lemma unescapeText_EscapeText (s : string) :
  golib.sforall xmlByte s = true → unescapeText (golib.EscapeText s) = s.
Proof.
  unfold golib.sforall, golib.EscapeText, unescapeText.
  induction s as [|c s IH]; [done|].
  cbn [String.list_ascii_of_string forallb List.map].
  intros [Hc Hs]%andb_true_iff.
  rewrite concat_empty_cons, unescape_escapeByte by done.
  by rewrite IH.
Qed.



(** ** The crawl loop *)

Lemma int_add_exact (a b : Z) :
  int.min ≤ a + b ≤ int.max → int.add a b = a + b.
Proof.
  unfold int.add, int.wrap, int.min, int.max. intros Hrange.
  rewrite Z.mod_small; lia.
Qed.

Section CrawlFacts.
Context `{Library}.
Variable client : http.Client.
Variable maxDepth : Z.

Notation step := (crawlStep client maxDepth).
Notation loop := (crawlLoop client maxDepth).
Notation halts := (terminates client maxDepth).
Notation lvl := (level maxDepth).

Lemma crawlLoop_done fuel st : queue st = [] → loop fuel st = Some st.
Proof. intros Hq. destruct fuel; simpl; by rewrite Hq. Qed.

Lemma crawlLoop_step fuel st :
  queue st ≠ [] → loop (S fuel) st = loop fuel (step st).
Proof. intros Hq. simpl. by destruct (queue st). Qed.

Lemma crawlLoop_out_empty fuel : ∀ st st',
  loop fuel st = Some st' → queue st' = [].
Proof.
  induction fuel as [|fuel IH]; intros st st'; simpl.
  - destruct (queue st) eqn:Hq; [|done]. by intros [= <-].
  - destruct (queue st) eqn:Hq; [by intros [= <-]|]. apply IH.
Qed.

(** More fuel does not change the outcome of a run that ended. *)
Lemma crawlLoop_more fuel : ∀ st st' extra,
  loop fuel st = Some st' → loop (fuel + extra) st = Some st'.
Proof.
  induction fuel as [|fuel IH]; intros st st' extra; simpl.
  - destruct (queue st) eqn:Hq; [|done]. intros [= <-]. by apply crawlLoop_done.
  - destruct (queue st) eqn:Hq; [done|]. apply IH.
Qed.

Lemma terminates_done st : queue st = [] → halts st.
Proof. intros Hq. exists O, st. by apply crawlLoop_done. Qed.

Lemma terminates_step st : halts (step st) → halts st.
Proof.
  intros (fuel & st' & Hrun). destruct (queue st) eqn:Hq.
  - by apply terminates_done.
  - exists (S fuel), st'. rewrite crawlLoop_step; [done|]. by rewrite Hq.
Qed.

(** What the loop over the neighbours adds: the nodes [new], all one
  level below [d], for links of the page whose hrefs were not visited,
  each href once. *)
Lemma enqueue_spec neighbors : ∀ d visited queue,
  ∃ new,
    enqueue neighbors d visited queue
    = (list_to_set (List.map nodeHref new) ∪ visited, queue ++ new)
    ∧ Forall (λ n, depth n = int.add d 1 ∧ link n ∈ neighbors) new
    ∧ NoDup (List.map nodeHref new)
    ∧ (∀ h, h ∈ List.map nodeHref new → h ∉ visited).
Proof.
  induction neighbors as [|l ls IH]; intros d visited queue; simpl.
  - exists []. simpl. rewrite app_nil_r, (left_id_L ∅ (∪)).
    split_and!; [done|constructor|constructor|]. intros h. by rewrite elem_of_nil.
  - destruct (decide (Href l ∈ visited)) as [Hin|Hout].
    + destruct (IH d visited queue) as (new & -> & Hnew & Hnd & Hfresh).
      exists new. split_and!; [done| |done|done].
      eapply Forall_impl; [exact Hnew|]. intros n [? ?]. split; [done|by right].
    + destruct (IH d ({[Href l]} ∪ visited)
                  (queue ++ [{| link := l; depth := int.add d 1 |}]))
        as (new & -> & Hnew & Hnd & Hfresh).
      exists ({| link := l; depth := int.add d 1 |} :: new).
      split_and!.
      * rewrite <- app_assoc. simpl. f_equal. unfold nodeHref at 2. simpl.
        set_solver.
      * constructor; [split; [done|by left]|].
        eapply Forall_impl; [exact Hnew|]. intros n [? ?]. split; [done|by right].
      * simpl. constructor; [|done]. intros Hin. apply (Hfresh _ Hin).
        unfold nodeHref. simpl. set_solver.
      * intros h. simpl. rewrite elem_of_cons. intros [->|Hin].
        -- done.
        -- specialize (Hfresh _ Hin). set_solver.
Qed.

(** One iteration on a non-empty queue. *)
Lemma crawlStep_spec st n q :
  queue st = n :: q →
  ∃ new,
    queue (step st) = q ++ new
    ∧ result (step st) = result st ++ [link n]
    ∧ visited (step st) = list_to_set (List.map nodeHref new) ∪ visited st
    ∧ (requests (step st) = requests st
       ∨ requests (step st) = requests st ++ [nodeHref n])
    ∧ Forall (λ m, depth m = int.add (depth n) 1 ∧ depth n < maxDepth) new
    ∧ NoDup (List.map nodeHref new)
    ∧ (∀ h, h ∈ List.map nodeHref new → h ∉ visited st).
Proof.
  intros Hq. unfold crawlStep. rewrite Hq.
  assert (Hnone : ∀ v r rq,
    v = visited st → r = result st ++ [link n] →
    (rq = requests st ∨ rq = requests st ++ [nodeHref n]) →
    ∃ new,
      queue {| visited := v; queue := q; result := r; requests := rq |} = q ++ new
      ∧ result {| visited := v; queue := q; result := r; requests := rq |}
        = result st ++ [link n]
      ∧ visited {| visited := v; queue := q; result := r; requests := rq |}
        = list_to_set (List.map nodeHref new) ∪ visited st
      ∧ (requests {| visited := v; queue := q; result := r; requests := rq |}
         = requests st
         ∨ requests {| visited := v; queue := q; result := r; requests := rq |}
           = requests st ++ [nodeHref n])
      ∧ Forall (λ m, depth m = int.add (depth n) 1 ∧ depth n < maxDepth) new
      ∧ NoDup (List.map nodeHref new)
      ∧ (∀ h, h ∈ List.map nodeHref new → h ∉ visited st)).
  { intros v r rq -> -> Hrq. exists []. simpl. rewrite app_nil_r, (left_id_L ∅ (∪)).
    split_and!; [done..|constructor|constructor|].
    intros h. by rewrite elem_of_nil. }
  destruct (depth n >=? maxDepth) eqn:Hdepth.
  { apply Hnone; auto. }
  destruct (FetchAndParse (Href (link n)) client (requests st)) as [doc|e].
  2:{ apply Hnone; auto. }
  destruct (enqueue_spec (ExtractLinks doc (Href (link n))) (depth n) (visited st) q)
    as (new & -> & Hnew & Hnd & Hfresh).
  exists new. simpl. split_and!; [done..|by right| |done|done].
  eapply Forall_impl; [exact Hnew|]. intros m [? _]. split; [done|lia].
Qed.

(** *** Termination

  Running the loop over a prefix of the queue at level [K] leaves their
  children at level [K - 1] behind the rest of the queue. *)
Lemma level_children K n new :
  maxDepth ≤ int.max →
  0 ≤ depth n → maxDepth - depth n ≤ K →
  Forall (λ m, depth m = int.add (depth n) 1 ∧ depth n < maxDepth) new →
  lvl (K - 1) new ∧ (K ≤ 0 → new = []).
Proof.
  intros Hmax Hn HK Hnew. split.
  - eapply Forall_impl; [exact Hnew|]. intros m [Hm Hlt]. simpl in *.
    rewrite int_add_exact in Hm by (unfold int.min, int.max in *; lia). lia.
  - intros HK0. destruct Hnew as [|m new [_ Hlt] _]; [done|lia].
Qed.

Lemma crawl_phase q1 : ∀ st q2 K,
  maxDepth ≤ int.max →
  queue st = q1 ++ q2 → lvl K q1 →
  ∃ st' c, queue st' = q2 ++ c ∧ lvl (K - 1) c ∧ (K ≤ 0 → c = [])
           ∧ (halts st' → halts st).
Proof.
  induction q1 as [|n q1 IH]; intros st q2 K Hmax Hq Hlevel.
  - exists st, []. rewrite app_nil_r. split_and!; [done|constructor|done|done].
  - apply Forall_cons in Hlevel as [[Hn HK] Hlevel].
    destruct (crawlStep_spec st n (q1 ++ q2) Hq)
      as (new & Hq' & _ & _ & _ & Hnew & _).
    destruct (level_children K n new Hmax Hn HK Hnew) as [Hlnew Hempty].
    rewrite <- app_assoc in Hq'.
    destruct (IH (step st) (q2 ++ new) K Hmax Hq' Hlevel)
      as (st' & c & Hq'' & Hc & Hc0 & Hterm).
    exists st', (new ++ c). rewrite app_assoc. split_and!.
    + done.
    + by apply Forall_app.
    + intros HK0. by rewrite Hempty, Hc0.
    + intros Hst'. by apply terminates_step, Hterm.
Qed.

Lemma crawl_terminates_level (k : nat) : ∀ K st,
  maxDepth ≤ int.max →
  K < Z.of_nat k → lvl K (queue st) → halts st.
Proof.
  induction k as [|k IH]; intros K st Hmax HK Hlevel.
  - destruct (crawl_phase (queue st) st [] K Hmax) as (st' & c & Hq & _ & Hc & Hterm);
      [by rewrite app_nil_r|done|].
    apply Hterm, terminates_done. rewrite Hq, Hc; [done|lia].
  - destruct (crawl_phase (queue st) st [] K Hmax) as (st' & c & Hq & Hlc & Hc & Hterm);
      [by rewrite app_nil_r|done|].
    apply Hterm. destruct (decide (K ≤ 0)) as [HK0|HK0].
    + apply terminates_done. by rewrite Hq, Hc.
    + apply (IH (K - 1)); [done|lia|by rewrite Hq].
Qed.

(** *** Invariants of the loop *)
Lemma unique_step st : unique st → unique (step st).
Proof.
  intros [Hnd Hvis]. destruct (queue st) as [|n q] eqn:Hq.
  { unfold crawlStep. rewrite Hq. split; by rewrite ?Hq. }
  destruct (crawlStep_spec st n q Hq)
    as (new & Hq' & Hres' & Hvis' & _ & _ & Hndnew & Hfresh).
  unfold unique. rewrite Hq', Hres', Hvis'.
  simpl in Hnd, Hvis.
  assert (Heq : List.map Href (result st ++ [link n]) ++ List.map nodeHref (q ++ new)
          = (List.map Href (result st) ++ nodeHref n :: List.map nodeHref q)
            ++ List.map nodeHref new).
  { rewrite !map_app, <- !app_assoc. reflexivity. }
  rewrite Heq. split.
  - apply NoDup_app. split_and!; [done| |done].
    intros h Hin Hin'. apply (Hfresh _ Hin'), Hvis, Hin.
  - intros h [Hin|Hin]%elem_of_app.
    + apply elem_of_union_r, Hvis, Hin.
    + apply elem_of_union_l, elem_of_list_to_set, Hin.
Qed.


Lemma fetched_step st : fetched st → fetched (step st).
Proof.
  intros Hf. destruct (queue st) as [|n q] eqn:Hq.
  { unfold crawlStep. by rewrite Hq. }
  destruct (crawlStep_spec st n q Hq) as (new & _ & Hres & _ & Hreq & _).
  intros u. rewrite Hres, map_app, elem_of_app. destruct Hreq as [->| ->].
  - intros ?. left. by apply Hf.
  - intros [?|Hu]%elem_of_app; [left; by apply Hf|right]. exact Hu.
Qed.

Lemma crawlLoop_invariant (P : crawlState → Prop) :
  (∀ st, P st → P (step st)) →
  ∀ fuel st st', P st → loop fuel st = Some st' → P st'.
Proof.
  intros Hstep. induction fuel as [|fuel IH]; intros st st' HP; simpl.
  - destruct (queue st); [|done]. by intros [= <-].
  - destruct (queue st) eqn:Hq; [by intros [= <-]|].
    apply IH, Hstep, HP.
Qed.

(** A failed fetch only drops the node: the link is in the result, the
  queue goes on with the nodes behind it. *)
Lemma crawlStep_fetch_failed st n q e :
  queue st = n :: q →
  depth n < maxDepth →
  FetchAndParse (Href (link n)) client (requests st) = inr e →
  step st = {| visited := visited st; queue := q;
                    result := result st ++ [link n];
                    requests := requests st ++ [Href (link n)] |}.
Proof.
  intros Hq Hdepth Hfetch. unfold crawlStep. rewrite Hq.
  destruct (depth n >=? maxDepth) eqn:Hge; [lia|]. by rewrite Hfetch.
Qed.

End CrawlFacts.

(** ** The crawl of a cycle of pages *)
Section Cycle.
Context `{Library}.
Variable client : http.Client.
Variable maxDepth : Z.
Variable pages : list string.
Hypothesis Hcycle : cycleWeb client pages.
Hypothesis Hdepth : 0 ≤ maxDepth ≤ int.max.

Lemma cycle_next_fresh (i : nat) (x : string) :
  pages !! S i = Some x → x ∉ take (S i) pages.
Proof.
  intros Hx (j & Hj & Hlt)%elem_of_take.
  destruct Hcycle as [Hnd _].
  pose proof (NoDup_lookup _ _ _ _ Hnd Hj Hx). lia.
Qed.

Lemma cycle_stage_run (j : nat) : ∀ i st,
  (i + S j = reach pages maxDepth)%nat →
  cycleStage pages i st →
  ∃ fuel st', crawlLoop client maxDepth fuel st = Some st'
              ∧ List.map Href (result st') = take (reach pages maxDepth) pages.
Proof.
  induction j as [|j IH]; intros i st Hreach (Hvis & (l & Hq & Hl) & Hres).
  all: pose proof (lookup_lt_Some _ _ _ Hl) as HiN.
  all: assert (Hres' : List.map Href (result st ++ [l]) = take (S i) pages)
         by (rewrite map_app, Hres; simpl; by rewrite (take_S_r _ _ _ Hl)).
  all: unfold reach in *.
  all: destruct (Hcycle) as [Hnd Hweb].
  all: destruct (Hweb i (Href l) (requests st) Hl) as (doc & next & Hfetch & Hnext & Hlinks).
  all: destruct (ExtractLinks doc (Href l)) as [|lnk [|? ?]] eqn:Hextract;
         try discriminate Hlinks.
  all: injection Hlinks as Hlnk.
  all: assert (Hstep : crawlLoop client maxDepth 1 st
                       = crawlLoop client maxDepth 0 (crawlStep client maxDepth st))
         by (apply crawlLoop_step; by rewrite Hq).
  all: unfold crawlStep in Hstep; rewrite Hq in Hstep; simpl link in Hstep;
         simpl depth in Hstep; rewrite Hfetch, Hextract in Hstep; simpl enqueue in Hstep.
  - (* the last page the crawl reaches *)
    destruct (Z.of_nat i >=? maxDepth) eqn:Hge.
    + exists 1%nat. eexists. split; [exact Hstep|]. simpl.
      rewrite Hres'. f_equal. lia.
    + assert (S i = length pages) as HN by lia.
      destruct (decide (Href lnk ∈ visited st)) as [Hin|Hout].
      * exists 1%nat. eexists. split; [exact Hstep|]. simpl.
        rewrite Hres'. f_equal. lia.
      * exfalso. apply Hout, Hvis. rewrite Hlnk.
        rewrite <- HN, Nat.add_1_r, Nat.Div0.mod_same in Hnext.
        apply elem_of_take. exists O. split; [done|lia].
  - destruct (Z.of_nat i >=? maxDepth) eqn:Hge; [lia|].
    destruct (decide (Href lnk ∈ visited st)) as [Hin|Hout].
    + exfalso. rewrite Hlnk in Hin. apply Hvis in Hin.
      rewrite Nat.mod_small in Hnext by lia.
      rewrite Nat.add_1_r in Hnext. by apply (cycle_next_fresh i next).
    + rewrite Nat.mod_small, Nat.add_1_r in Hnext by lia.
      rewrite int_add_exact in Hstep by (unfold int.min, int.max in *; lia).
      match type of Hstep with
      | _ = crawlLoop _ _ _ ?st1 =>
          destruct (IH (S i) st1) as (fuel & st' & Hrun & Hout')
      end.
      * lia.
      * split_and!.
        -- intros h. simpl. rewrite elem_of_union, elem_of_singleton, Hvis.
           rewrite (take_S_r _ (S i) next Hnext), (elem_of_app _ [next]).
           rewrite list_elem_of_singleton, Hlnk. tauto.
        -- exists lnk. simpl. split; [|by rewrite Hlnk].
           do 2 f_equal. lia.
        -- exact Hres'.
      * exists (S fuel), st'. split; [|done].
        rewrite crawlLoop_step by (by rewrite Hq).
        unfold crawlStep. rewrite Hq. simpl link. simpl depth.
        rewrite Hge, Hfetch, Hextract. simpl enqueue.
        destruct (decide (Href lnk ∈ visited st)); [done|].
        simpl. rewrite int_add_exact by (unfold int.min, int.max in *; lia).
        exact Hrun.
Qed.

End Cycle.

(** ** Properties of [CrawlBFS] *)

Lemma NoDup_take_prefix {A} (l : list A) (n : nat) : NoDup l → NoDup (take n l).
Proof.
  intros Hnd. rewrite <- (take_drop n l) in Hnd.
  by apply NoDup_app in Hnd as [? _].
Qed.

Lemma start_level (links_0 : Link) (maxDepth : Z) :
  level maxDepth maxDepth [ {| link := links_0; depth := 0 |} ].
Proof. repeat constructor; simpl; lia. Qed.

(** The outcome does not depend on the number of iterations allowed,
  once it is enough. *)
Lemma CrawlBFS_outcome_unique `{Library} (client : http.Client)
    (links : list Link) (maxDepth : Z) (fuel1 fuel2 : nat) (out1 out2 : Outcome) :
  CrawlBFS fuel1 links maxDepth client = Some out1 →
  CrawlBFS fuel2 links maxDepth client = Some out2 →
  out1 = out2.
Proof.
  unfold CrawlBFS. destruct links as [|links_0 rest]; [congruence|].
  destruct (crawlLoop client maxDepth fuel1 _) as [st1|] eqn:H1; [|done].
  destruct (crawlLoop client maxDepth fuel2 _) as [st2|] eqn:H2; [|done].
  intros [= <-] [= <-].
  apply (crawlLoop_more _ _ _ _ _ fuel2) in H1.
  apply (crawlLoop_more _ _ _ _ _ fuel1) in H2.
  rewrite Nat.add_comm in H2. congruence.
Qed.

(** C1.  For a [maxDepth] that is a Go [int], [CrawlBFS] returns on
  every seed list and every client: some number of iterations empties the
  queue.  On a web that is a cycle of N pages, seeded with the first page
  and with [maxDepth = k >= 0], it returns the first [min(N, k + 1)] pages
  of the cycle, each once: at most [min(N, k + 1)] distinct pages. *)
Theorem CrawlBFS_terminates `{Library}
    (client : http.Client) (links : list Link) (maxDepth : Z) :
  int.InRange maxDepth →
  (∃ fuel out, CrawlBFS fuel links maxDepth client = Some out)
  ∧ (∀ pages seed rest,
       cycleWeb client pages →
       links = seed :: rest →
       pages !! 0%nat = Some (Href seed) →
       0 ≤ maxDepth →
       ∃ fuel out,
         CrawlBFS fuel links maxDepth client = Some out
         ∧ err out = None
         ∧ List.map Href (returned out) = take (reach pages maxDepth) pages
         ∧ NoDup (List.map Href (returned out))
         ∧ (length (returned out)
            ≤ Nat.min (length pages) (Z.to_nat (maxDepth + 1)))%nat).
Proof.
  intros [_ Hmax]. split.
  - destruct links as [|links_0 rest]; [by exists O; eexists|].
    destruct (crawl_terminates_level client maxDepth (S (Z.to_nat maxDepth)) maxDepth
                {| visited := {[ Href links_0 ]};
                   queue := [ {| link := links_0; depth := 0 |} ];
                   result := []; requests := [] |})
      as (fuel & st' & Hrun); [done|lia|apply start_level|].
    exists fuel. eexists. unfold CrawlBFS. by rewrite Hrun.
  - intros pages seed rest Hcycle -> Hseed Hk.
    pose proof (lookup_lt_Some _ _ _ Hseed) as HN.
    assert (∃ j, (0 + S j = reach pages maxDepth)%nat) as [j Hj].
    { exists (Nat.pred (reach pages maxDepth)). unfold reach. lia. }
    destruct (cycle_stage_run client maxDepth pages Hcycle (conj Hk Hmax) j O
                {| visited := {[ Href seed ]};
                   queue := [ {| link := seed; depth := 0 |} ];
                   result := []; requests := [] |} Hj)
      as (fuel & st' & Hrun & Hres).
    { split_and!.
      - intros h. simpl. rewrite (take_S_r _ _ _ Hseed), elem_of_singleton.
        simpl. by rewrite list_elem_of_singleton.
      - by exists seed.
      - done. }
    exists fuel. eexists. unfold CrawlBFS. rewrite Hrun. simpl.
    split_and!; [done|done|exact Hres| |].
    + cbn [returned]. rewrite Hres. apply NoDup_take_prefix. by destruct Hcycle.
    + cbn [returned]. rewrite <- (length_map Href), Hres, length_take.
      unfold reach. lia.
Qed.

Lemma cycle3_is_cycle :
  @cycleWeb golib.lib (example.static example.cycle3) example.pages3.
Proof.
  split.
  - refine (bool_decide_unpack _ _). vm_compute. exact I.
  - intros i u requests Hi.
    destruct i as [|[|[|i]]]; vm_compute in Hi; try discriminate Hi;
      injection Hi as <-.
    + exists (example.page [ example.a [ example.href "/p1" ] [ example.text "one" ] ]),
        "https://a.com/p1".
      split_and!; vm_compute; reflexivity.
    + exists (example.page [ example.a [ example.href "/p2" ] [ example.text "two" ] ]),
        "https://a.com/p2".
      split_and!; vm_compute; reflexivity.
    + exists (example.page [ example.a [ example.href "/p0" ] [ example.text "zero" ] ]),
        "https://a.com/p0".
      split_and!; vm_compute; reflexivity.
Defined.

Lemma CrawlBFS_terminates_witness :
  ∃ fuel out,
    @CrawlBFS golib.lib fuel [ {| Href := "https://a.com/p0"; Text := "seed" |} ] 1
      (example.static example.cycle3) = Some out
    ∧ err out = None
    ∧ List.map Href (returned out) = [ "https://a.com/p0"; "https://a.com/p1" ]
    ∧ NoDup (List.map Href (returned out))
    ∧ (length (returned out) ≤ 2)%nat.
Proof.
  assert (int.InRange 1) as Hrange by (unfold int.InRange, int.min, int.max; lia).
  destruct (@CrawlBFS_terminates golib.lib (example.static example.cycle3)
              [ {| Href := "https://a.com/p0"; Text := "seed" |} ] 1 Hrange)
    as [_ Hcycle].
  apply (Hcycle example.pages3 {| Href := "https://a.com/p0"; Text := "seed" |} []).
  - exact cycle3_is_cycle.
  - reflexivity.
  - reflexivity.
  - lia.
Defined.

(** C2.  Whatever the seed list, the depth and the answers of the
  client, the hrefs of the links [CrawlBFS] returns are pairwise
  different. *)
Theorem CrawlBFS_unique `{Library} (client : http.Client) (fuel : nat)
    (links : list Link) (maxDepth : Z) (out : Outcome) :
  CrawlBFS fuel links maxDepth client = Some out →
  NoDup (List.map Href (returned out)).
Proof.
  unfold CrawlBFS. destruct links as [|links_0 rest].
  { intros [= <-]. constructor. }
  destruct (crawlLoop _ _ _ _) as [st'|] eqn:Hrun; [|done]. intros [= <-]. simpl.
  pose proof (crawlLoop_out_empty _ _ _ _ _ Hrun) as Hq.
  apply (crawlLoop_invariant client maxDepth unique (unique_step client maxDepth))
    in Hrun as [Hnd _].
  - by rewrite Hq, app_nil_r in Hnd.
  - split; simpl.
    + repeat constructor. set_solver.
    + intros h. unfold nodeHref. simpl. set_solver.
Qed.

Lemma CrawlBFS_unique_witness :
  NoDup [ "https://a.com/p0"; "https://a.com/p1"; "https://a.com/p2" ].
Proof.
  apply (@CrawlBFS_unique golib.lib (example.static example.cycle3) 10
           [ {| Href := "https://a.com/p0"; Text := "seed" |} ] 5
           {| returned := [ {| Href := "https://a.com/p0"; Text := "seed" |};
                            {| Href := "https://a.com/p1"; Text := "one" |};
                            {| Href := "https://a.com/p2"; Text := "two" |} ];
              err := None;
              fetches := example.pages3 |}).
  vm_compute. reflexivity.
Defined.

(** C3.  On a non-empty seed list, [CrawlBFS] does what it does on the
  list of its first element alone, with any number of iterations allowed:
  the other elements are not read. *)
Theorem CrawlBFS_first_seed_only `{Library} (client : http.Client) (fuel : nat)
    (links_0 : Link) (rest : list Link) (maxDepth : Z) :
  CrawlBFS fuel (links_0 :: rest) maxDepth client
  = CrawlBFS fuel [ links_0 ] maxDepth client.
Proof. reflexivity. Qed.

(** C4.  With [maxDepth = 0] and a non-empty seed list, the first
  iteration ends the loop: [CrawlBFS] returns the first seed link alone,
  without error, and has called [FetchAndParse] on nothing. *)
Theorem CrawlBFS_depth_zero `{Library} (client : http.Client) (fuel : nat)
    (links_0 : Link) (rest : list Link) :
  CrawlBFS (S fuel) (links_0 :: rest) 0 client
  = Some {| returned := [ links_0 ]; err := None; fetches := [] |}.
Proof.
  unfold CrawlBFS. rewrite crawlLoop_step by done.
  unfold crawlStep. simpl. by rewrite crawlLoop_done.
Qed.

(** C5.  [CrawlBFS] returns an error exactly on the empty seed list, and
  then it returns no link and has fetched nothing, whatever the number of
  iterations allowed.  Every URL it has passed to [FetchAndParse], failed
  or not, is the href of a returned link.  When the fetch of the node at
  the front of the queue fails, the loop goes on with the rest of the
  queue, the node's link appended to the result. *)
Theorem CrawlBFS_errors `{Library} (client : http.Client) (fuel : nat)
    (links : list Link) (maxDepth : Z) (out : Outcome) :
  CrawlBFS fuel links maxDepth client = Some out →
  (is_Some (err out) ↔ links = [])
  ∧ (links = [] → returned out = [] ∧ fetches out = [])
  ∧ (∀ fuel', CrawlBFS fuel' [] maxDepth client
       = Some {| returned := []; err := Some "no links to traverse"; fetches := [] |})
  ∧ (∀ u, u ∈ fetches out → u ∈ List.map Href (returned out))
  ∧ (∀ st n q e k,
       queue st = n :: q →
       depth n < maxDepth →
       FetchAndParse (Href (link n)) client (requests st) = inr e →
       crawlLoop client maxDepth (S k) st
       = crawlLoop client maxDepth k
           {| visited := visited st; queue := q;
              result := result st ++ [ link n ];
              requests := requests st ++ [ Href (link n) ] |}).
Proof.
  intros Hout. split_and!.
  - unfold CrawlBFS in Hout. destruct links as [|links_0 rest].
    + injection Hout as <-. simpl. split; [done|by eexists].
    + destruct (crawlLoop _ _ _ _); [|done]. injection Hout as <-. simpl.
      split; [by intros [? ?]|done].
  - intros ->. by injection Hout as <-.
  - done.
  - unfold CrawlBFS in Hout. destruct links as [|links_0 rest].
    { injection Hout as <-. simpl. intros u. by rewrite elem_of_nil. }
    destruct (crawlLoop _ _ _ _) as [st'|] eqn:Hrun; [|done].
    injection Hout as <-. simpl.
    apply (crawlLoop_invariant client maxDepth fetched (fetched_step client maxDepth))
      in Hrun; [exact Hrun|].
    intros u. simpl. by rewrite elem_of_nil.
  - intros st n q e k Hq Hdepth Hfetch.
    rewrite crawlLoop_step by (by rewrite Hq).
    by rewrite (crawlStep_fetch_failed client maxDepth st n q e).
Qed.

Lemma CrawlBFS_errors_witness :
  "https://a.com/gone" ∈
    [ "https://a.com/"; "https://a.com/gone"; "https://a.com/p1" ].
Proof.
  pose proof (@CrawlBFS_errors golib.lib (example.static example.broken) 10
    [ {| Href := "https://a.com/"; Text := "seed" |} ] 2
    {| returned := [ {| Href := "https://a.com/"; Text := "seed" |};
                     {| Href := "https://a.com/gone"; Text := "gone" |};
                     {| Href := "https://a.com/p1"; Text := "one" |} ];
       err := None;
       fetches := [ "https://a.com/"; "https://a.com/gone"; "https://a.com/p1" ] |})
    as Hthm.
  destruct Hthm as (_ & _ & _ & Hfetched & _).
  - vm_compute. reflexivity.
  - apply (Hfetched "https://a.com/gone"). right. left.
Defined.

(** * Further properties *)

(** ** The internal-link test *)

Lemma prefix_append (s t : string) : String.prefix s (s +:+ t) = true.
Proof.
  induction s as [|c s IH]; [by destruct t|].
  rewrite append_cons. cbn [String.prefix].
  destruct (ascii_dec c c); [exact IH|done].
Qed.

(** X1.  The test is a comparison of characters, not of hosts: every
  string that extends [baseDomain] is internal, whatever follows (a longer
  host name, for one), every string that starts with a slash is internal
  for every [baseDomain] (a protocol-relative URL of another host, for
  one), and with the empty [baseDomain] every link is. *)
Theorem isInternalLink_extends (baseDomain rest : string) :
  isInternalLink (baseDomain +:+ rest) baseDomain = true
  ∧ isInternalLink ("/" +:+ rest) baseDomain = true
  ∧ isInternalLink rest EmptyString = true.
Proof.
  unfold isInternalLink, HasPrefix. split_and!.
  - rewrite prefix_append. apply orb_true_r.
  - rewrite append_cons. cbn [String.prefix].
    destruct (ascii_dec "/" "/"); [|done]. by destruct rest.
  - destruct rest as [|c rest]; [reflexivity|].
    apply orb_true_iff. right. reflexivity.
Qed.

(** ** The text of a node *)

(** X2.  Comments, doctypes and any other node that is neither text nor
  element contribute nothing to the text of a node, wherever they are in
  the tree: the text of a tree is the text of the tree without them. *)
Theorem extractText_strip `{Library} (n : html.Node) :
  extractText (strip n) = extractText n.
Proof.
  induction n as [t a d attrs cs IH] using Node_tree_ind.
  cbn [strip extractText]. destruct t; try reflexivity.
  do 2 f_equal.
  induction IH as [|c cs Hc _ IHcs]; [reflexivity|].
  cbn [List.map]. destruct (textual c) eqn:Htext.
  - cbn [List.map]. rewrite !concat_empty_cons, Hc. by f_equal.
  - rewrite concat_empty_cons, IHcs.
    destruct c as [tc ac dc attrc csc]. unfold textual in Htext. simpl in Htext.
    by destruct tc.
Qed.

(** ** The order and the number of the links of a page *)

Section ExtractOrder.
Context `{Library}.

Lemma record_fold_sublist ls : ∀ st,
  ∃ new, links (fold_left record ls st) = links st ++ new
         ∧ new `sublist_of` ls.
Proof.
  induction ls as [|l ls IH]; intros st; cbn [fold_left].
  - exists []. by rewrite app_nil_r.
  - destruct (IH (record st l)) as (new & Hnew & Hsub). unfold record in *.
    destruct (decide (Href l ∈ seen st)).
    + exists new. split; [done|]. by apply sublist_cons.
    + exists (l :: new). cbn [links] in Hnew. rewrite Hnew, <- app_assoc.
      split; [done|]. by apply sublist_skip.
Qed.

Lemma candidates_length doc baseDomain :
  (length (candidates baseDomain doc) ≤ countAnchors doc)%nat.
Proof.
  unfold candidates, countAnchors.
  induction (preorder doc) as [|n ns IH]; [done|].
  cbn [omap list_omap List.filter]. unfold anchorLink at 1.
  destruct (isAnchor n).
  - destruct (firstInternalHref baseDomain (html.Attr n)); simpl; lia.
  - exact IH.
Qed.

End ExtractOrder.

(** X3.  The links of a page come in document order, each at the place
  of the first anchor that yields its href: the result is what is left of
  the links of the anchors, in order, when some are dropped.  A page gives
  at most as many links as it has anchor elements, so none when it has
  none. *)
Theorem ExtractLinks_document_order `{Library} (doc : html.Node) (baseDomain : string) :
  ExtractLinks doc baseDomain `sublist_of` candidates baseDomain doc
  ∧ (length (ExtractLinks doc baseDomain) ≤ countAnchors doc)%nat.
Proof.
  assert (Hsub : ExtractLinks doc baseDomain `sublist_of` candidates baseDomain doc).
  { rewrite ExtractLinks_candidates.
    destruct (record_fold_sublist (candidates baseDomain doc)
                {| seen := ∅; links := [] |}) as (new & -> & Hsub).
    exact Hsub. }
  split; [exact Hsub|].
  etrans; [apply sublist_length, Hsub|apply candidates_length].
Qed.

(** ** The crawl: its first link and its requests *)

Section CrawlMore.
Context `{Library}.
Variable client : http.Client.
Variable maxDepth : Z.

Lemma seedFirst_step links_0 st :
  seedFirst links_0 st → seedFirst links_0 (crawlStep client maxDepth st).
Proof.
  intros Hst. destruct (queue st) as [|n q] eqn:Hq.
  { unfold crawlStep. by rewrite Hq. }
  destruct (crawlStep_spec client maxDepth st n q Hq) as (new & _ & Hres & _).
  right. rewrite Hres. destruct Hst as [[-> (d & q' & Hq')]|[tail ->]].
  - exists []. rewrite Hq in Hq'. by injection Hq' as -> _.
  - by exists (tail ++ [link n]).
Qed.

Lemma requestsInResult_step st :
  requestsInResult st → requestsInResult (crawlStep client maxDepth st).
Proof.
  unfold requestsInResult. intros Hst. destruct (queue st) as [|n q] eqn:Hq.
  { unfold crawlStep. by rewrite Hq. }
  destruct (crawlStep_spec client maxDepth st n q Hq)
    as (new & _ & Hres & _ & Hreq & _).
  rewrite Hres, map_app. destruct Hreq as [-> | ->].
  - by apply sublist_inserts_r.
  - by apply sublist_app.
Qed.

End CrawlMore.

(** X4.  The first link [CrawlBFS] returns is the first seed link itself,
  with the text it was given. *)
Theorem CrawlBFS_seed_first `{Library} (client : http.Client) (fuel : nat)
    (links_0 : Link) (rest : list Link) (maxDepth : Z) (out : Outcome) :
  CrawlBFS fuel (links_0 :: rest) maxDepth client = Some out →
  ∃ tail, returned out = links_0 :: tail.
Proof.
  unfold CrawlBFS.
  destruct (crawlLoop _ _ _ _) as [st'|] eqn:Hrun; [|done]. intros [= <-].
  pose proof (crawlLoop_out_empty _ _ _ _ _ Hrun) as Hq.
  apply (crawlLoop_invariant client maxDepth (seedFirst links_0)
           (seedFirst_step client maxDepth links_0)) in Hrun.
  - destruct Hrun as [[_ (d & q & Hq')]|Htail]; [congruence|exact Htail].
  - left. split; [done|]. by exists 0, [].
Qed.

Lemma CrawlBFS_seed_first_witness :
  ∃ tail,
    [ {| Href := "https://a.com/p0"; Text := "seed" |};
      {| Href := "https://a.com/p1"; Text := "one" |} ]
    = {| Href := "https://a.com/p0"; Text := "seed" |} :: tail.
Proof.
  apply (@CrawlBFS_seed_first golib.lib (example.static example.cycle3) 10
           {| Href := "https://a.com/p0"; Text := "seed" |}
           [ {| Href := "https://a.com/p2"; Text := "other" |} ] 1
           {| returned := [ {| Href := "https://a.com/p0"; Text := "seed" |};
                            {| Href := "https://a.com/p1"; Text := "one" |} ];
              err := None;
              fetches := [ "https://a.com/p0" ] |}).
  vm_compute. reflexivity.
Defined.

(** X5.  The URLs [CrawlBFS] passes to [FetchAndParse] are hrefs of the
  returned links, in the order of the result; no URL is requested twice,
  and there are at most as many requests as returned links. *)
Theorem CrawlBFS_requests_once `{Library} (client : http.Client) (fuel : nat)
    (links : list Link) (maxDepth : Z) (out : Outcome) :
  CrawlBFS fuel links maxDepth client = Some out →
  fetches out `sublist_of` List.map Href (returned out)
  ∧ NoDup (fetches out)
  ∧ (length (fetches out) ≤ length (returned out))%nat.
Proof.
  intros Hout.
  assert (Hboth : fetches out `sublist_of` List.map Href (returned out)
                  ∧ NoDup (List.map Href (returned out))).
  { unfold CrawlBFS in Hout. destruct links as [|links_0 rest].
    { injection Hout as <-. simpl. split; [done|constructor]. }
    destruct (crawlLoop _ _ _ _) as [st'|] eqn:Hrun; [|done].
    injection Hout as <-. cbn [fetches returned].
    pose proof (crawlLoop_out_empty _ _ _ _ _ Hrun) as Hq. split.
    - apply (crawlLoop_invariant client maxDepth requestsInResult
               (requestsInResult_step client maxDepth)) in Hrun; [exact Hrun|].
      unfold requestsInResult. simpl. done.
    - apply (crawlLoop_invariant client maxDepth unique (unique_step client maxDepth))
        in Hrun as [Hnd _].
      + by rewrite Hq, app_nil_r in Hnd.
      + split; simpl.
        * repeat constructor. set_solver.
        * intros h. unfold nodeHref. simpl. set_solver. }
  destruct Hboth as [Hsub Hnd]. split_and!.
  - exact Hsub.
  - by eapply sublist_NoDup.
  - rewrite <- (length_map Href). by apply sublist_length.
Qed.

Lemma CrawlBFS_requests_once_witness :
  NoDup [ "https://a.com/"; "https://a.com/gone"; "https://a.com/p1" ].
Proof.
  pose proof (@CrawlBFS_requests_once golib.lib (example.static example.broken) 10
    [ {| Href := "https://a.com/"; Text := "seed" |} ] 2
    {| returned := [ {| Href := "https://a.com/"; Text := "seed" |};
                     {| Href := "https://a.com/gone"; Text := "gone" |};
                     {| Href := "https://a.com/p1"; Text := "one" |} ];
       err := None;
       fetches := [ "https://a.com/"; "https://a.com/gone"; "https://a.com/p1" ] |})
    as Hthm.
  destruct Hthm as (_ & Hnd & _).
  - vm_compute. reflexivity.
  - exact Hnd.
Defined.

(** X6.  A depth that is zero or negative stops the crawl at the seed:
  the first seed link is returned alone and nothing is fetched. *)
Theorem CrawlBFS_depth_not_positive `{Library} (client : http.Client) (fuel : nat)
    (links_0 : Link) (rest : list Link) (maxDepth : Z) :
  maxDepth ≤ 0 →
  CrawlBFS (S fuel) (links_0 :: rest) maxDepth client
  = Some {| returned := [ links_0 ]; err := None; fetches := [] |}.
Proof.
  intros Hdepth. unfold CrawlBFS. rewrite crawlLoop_step by done.
  unfold crawlStep. cbn [queue depth link result visited requests].
  destruct (0 >=? maxDepth) eqn:Hge; [|lia]. by rewrite crawlLoop_done.
Qed.

Lemma CrawlBFS_depth_not_positive_witness :
  @CrawlBFS golib.lib 1 [ {| Href := "https://a.com/p0"; Text := "seed" |} ] (-3)
    (example.static example.cycle3)
  = Some {| returned := [ {| Href := "https://a.com/p0"; Text := "seed" |} ];
            err := None; fetches := [] |}.
Proof.
  apply (@CrawlBFS_depth_not_positive golib.lib (example.static example.cycle3) 0
           {| Href := "https://a.com/p0"; Text := "seed" |} [] (-3)).
  lia.
Defined.

(** ** The crawl of a web that does not change, level by level *)

Section LevelFacts.
Context `{Library}.
Variable client : http.Client.
Variable maxDepth : Z.
Hypothesis Hstatic : staticClient client.
Hypothesis Hmax : maxDepth ≤ int.max.

Notation nbrs := (neighborsOf client).
Notation expandOn := (expand client).
Notation lvs := (levels client).
Notation fetchedLvs := (fetchedLevels client).
Notation loop := (crawlLoop client maxDepth).

Lemma FetchAndParse_static (u : string) (requests : list string) :
  FetchAndParse u client requests = FetchAndParse u client [].
Proof. unfold FetchAndParse. by rewrite Hstatic. Qed.

(** The loop over the neighbours of a node of depth [d] is [discover]
  on the links behind the nodes of depth [d + 1]. *)
Lemma enqueue_discover (d : nat) neighbors : ∀ V q acc,
  Z.of_nat d < maxDepth →
  enqueue neighbors (Z.of_nat d) V (q ++ List.map (nodeAt (S d)) acc)
  = ((discover neighbors V acc).1,
     q ++ List.map (nodeAt (S d)) (discover neighbors V acc).2).
Proof.
  intros V q acc Hd. revert V acc.
  induction neighbors as [|n ns IH]; intros V acc; cbn [enqueue discover].
  - reflexivity.
  - destruct (decide (Href n ∈ V)); [apply IH|].
    rewrite <- IH. f_equal. rewrite map_app, app_assoc. cbn [List.map].
    unfold nodeAt at 3. do 3 f_equal.
    rewrite int_add_exact by (unfold int.min, int.max in *; lia). lia.
Qed.

(** One iteration on a node that is expanded. *)
Lemma crawlStep_expand (d : nat) (st : crawlState) (l : Link)
    (q : list Node) (acc : list Link) :
  Z.of_nat d < maxDepth →
  queue st = nodeAt d l :: q ++ List.map (nodeAt (S d)) acc →
  crawlStep client maxDepth st
  = {| visited := (discover (nbrs (Href l)) (visited st) acc).1;
       queue := q ++ List.map (nodeAt (S d))
                       (discover (nbrs (Href l)) (visited st) acc).2;
       result := result st ++ [ l ];
       requests := requests st ++ [ Href l ] |}.
Proof.
  intros Hd Hq. unfold crawlStep. rewrite Hq. cbn [nodeAt link depth].
  destruct (Z.of_nat d >=? maxDepth) eqn:Hge; [lia|].
  rewrite FetchAndParse_static. unfold neighborsOf.
  destruct (FetchAndParse (Href l) client []) as [doc|e].
  - rewrite enqueue_discover by done. reflexivity.
  - reflexivity.
Qed.

(** The iterations over a whole level that is expanded. *)
Lemma crawl_phase_expand (d : nat) (F : list Link) : ∀ st acc fuel,
  Z.of_nat d < maxDepth →
  queue st = List.map (nodeAt d) F ++ List.map (nodeAt (S d)) acc →
  loop (length F + fuel) st
  = loop fuel
      {| visited := (expandOn F (visited st) acc).1;
         queue := List.map (nodeAt (S d)) (expandOn F (visited st) acc).2;
         result := result st ++ F;
         requests := requests st ++ List.map Href F |}.
Proof.
  induction F as [|l F IH]; intros st acc fuel Hd Hq.
  - cbn [length Nat.add expand List.map fst snd].
    rewrite !app_nil_r. destruct st as [v q r rq]. simpl in Hq. by subst q.
  - cbn [length Nat.add]. cbn [List.map] in Hq. rewrite <- app_comm_cons in Hq.
    rewrite crawlLoop_step by (by rewrite Hq).
    rewrite (crawlStep_expand d st l _ acc Hd Hq).
    erewrite (IH _ _ fuel Hd); [|reflexivity].
    cbn [visited queue result requests expand].
    destruct (discover (nbrs (Href l)) (visited st) acc) as [V1 acc1].
    cbn [fst snd List.map]. by rewrite <- !app_assoc.
Qed.

(** The iterations over nodes that are not expanded. *)
Lemma crawl_phase_leaf (q : list Node) : ∀ st fuel,
  Forall (λ n, maxDepth ≤ depth n) q →
  queue st = q →
  loop (length q + fuel) st
  = loop fuel {| visited := visited st; queue := [];
                 result := result st ++ List.map link q;
                 requests := requests st |}.
Proof.
  induction q as [|n q IH]; intros st fuel Hdeep Hq.
  - cbn [length Nat.add List.map]. rewrite app_nil_r.
    destruct st as [v q r rq]. simpl in Hq. by subst q.
  - apply Forall_cons in Hdeep as [Hn Hdeep]. cbn [length Nat.add].
    rewrite crawlLoop_step by (by rewrite Hq).
    assert (Hstep : crawlStep client maxDepth st
                    = {| visited := visited st; queue := q;
                         result := result st ++ [ link n ];
                         requests := requests st |}).
    { unfold crawlStep. rewrite Hq.
      destruct (depth n >=? maxDepth) eqn:Hge; [done|lia]. }
    rewrite Hstep, IH by done. cbn [visited queue result requests List.map].
    by rewrite <- app_assoc.
Qed.

(** From a queue that holds one level, [k] levels above the last. *)
Lemma crawl_levels (k : nat) : ∀ (d : nat) st F,
  Z.to_nat maxDepth = (d + k)%nat →
  queue st = List.map (nodeAt d) F →
  ∃ fuel st',
    loop fuel st = Some st'
    ∧ result st' = result st ++ lvs k (visited st) F
    ∧ requests st' = requests st ++ fetchedLvs k (visited st) F.
Proof.
  induction k as [|k IH]; intros d st F Hk Hq.
  - exists (length (queue st) + 0)%nat. eexists.
    rewrite (crawl_phase_leaf (queue st)); [|rewrite Hq|done].
    + split; [by apply crawlLoop_done|].
      cbn [result requests levels fetchedLevels].
      rewrite Hq, map_map, app_nil_r. cbn [nodeAt link]. by rewrite map_id.
    + apply Forall_forall. intros n (l & -> & _)%list_elem_of_fmap.
      cbn [nodeAt depth]. lia.
  - assert (Hd : Z.of_nat d < maxDepth) by lia.
    pose proof (crawl_phase_expand d F st [] 0 Hd) as Hphase.
    cbn [List.map] in Hphase. rewrite app_nil_r in Hphase.
    specialize (Hphase Hq).
    cbn [levels fetchedLevels].
    destruct (expandOn F (visited st) []) as [V1 next] eqn:Hexp.
    cbn [fst snd] in Hphase.
    match type of Hphase with
    | _ = loop 0 ?st1 => destruct (IH (S d) st1 next) as (fuel & st' & Hrun & Hres & Hreq)
    end; [lia|done|].
    exists (length F + fuel)%nat, st'. cbn [visited result requests] in Hres, Hreq.
    split_and!.
    + rewrite (crawl_phase_expand d F st [] fuel Hd)
        by (cbn [List.map]; by rewrite app_nil_r).
      rewrite Hexp. exact Hrun.
    + by rewrite Hres, <- app_assoc.
    + by rewrite Hreq, <- app_assoc.
Qed.

End LevelFacts.

(** *** What the levels hold *)

Section LevelSets.
Context `{Library}.
Variable client : http.Client.

Notation nbrs := (neighborsOf client).
Notation expandOn := (expand client).
Notation lvs := (levels client).
Notation reach := (hops client).

Lemma discover_spec neighbors : ∀ V acc,
  ∃ new,
    (discover neighbors V acc).2 = acc ++ new
    ∧ (∀ x, x ∈ (discover neighbors V acc).1 ↔ x ∈ V ∨ x ∈ List.map Href new)
    ∧ (∀ x, x ∈ new → x ∈ neighbors)
    ∧ (∀ w, w ∈ List.map Href neighbors → w ∈ (discover neighbors V acc).1).
Proof.
  induction neighbors as [|n ns IH]; intros V acc; cbn [discover].
  - exists []. cbn [fst snd List.map]. rewrite app_nil_r. split_and!; [done| |done|].
    + intros x. rewrite elem_of_nil. tauto.
    + intros w. by rewrite elem_of_nil.
  - destruct (decide (Href n ∈ V)) as [Hin|Hout].
    + destruct (IH V acc) as (new & Hnew & Hset & Hfrom & Hall).
      exists new. split_and!; [done|done| |].
      * intros x Hx. right. by apply Hfrom.
      * intros w. cbn [List.map]. rewrite elem_of_cons. intros [->|Hw]; [|by apply Hall].
        apply Hset. by left.
    + destruct (IH ({[Href n]} ∪ V) (acc ++ [n])) as (new & Hnew & Hset & Hfrom & Hall).
      exists (n :: new). split_and!.
      * by rewrite Hnew, <- app_assoc.
      * intros x. rewrite Hset. cbn [List.map].
        rewrite elem_of_union, elem_of_singleton, elem_of_cons. tauto.
      * intros x. rewrite !elem_of_cons. intros [->|Hx]; [by left|right; by apply Hfrom].
      * intros w. cbn [List.map]. rewrite elem_of_cons. intros [->|Hw]; [|by apply Hall].
        apply Hset. left. apply elem_of_union_l. by apply elem_of_singleton.
Qed.

Lemma expand_spec F : ∀ V acc,
  ∃ new,
    (expandOn F V acc).2 = acc ++ new
    ∧ (∀ x, x ∈ (expandOn F V acc).1 ↔ x ∈ V ∨ x ∈ List.map Href new)
    ∧ (∀ x, x ∈ new → ∃ f, f ∈ F ∧ x ∈ nbrs (Href f))
    ∧ (∀ f w, f ∈ F → w ∈ List.map Href (nbrs (Href f)) → w ∈ (expandOn F V acc).1).
Proof.
  induction F as [|l F IH]; intros V acc; cbn [expand].
  - exists []. cbn [fst snd List.map]. rewrite app_nil_r. split_and!; [done| | |].
    + intros x. rewrite elem_of_nil. tauto.
    + intros x. by rewrite elem_of_nil.
    + intros f w. by rewrite elem_of_nil.
  - destruct (discover_spec (nbrs (Href l)) V acc) as (new1 & Hnew1 & Hset1 & Hfrom1 & Hall1).
    destruct (discover (nbrs (Href l)) V acc) as [V1 acc1]. cbn [fst snd] in *.
    destruct (IH V1 acc1) as (new2 & Hnew2 & Hset2 & Hfrom2 & Hall2).
    exists (new1 ++ new2). split_and!.
    + by rewrite Hnew2, Hnew1, <- app_assoc.
    + intros x. rewrite Hset2, Hset1, map_app, elem_of_app. tauto.
    + intros x [Hx|Hx]%elem_of_app.
      * exists l. split; [by left|by apply Hfrom1].
      * destruct (Hfrom2 x Hx) as (f & Hf & Hxf). exists f. split; [by right|done].
    + intros f w [->|Hf]%elem_of_cons Hw.
      * apply Hset2. left. by apply Hall1.
      * by apply (Hall2 f).
Qed.

Lemma levels_head k V F : ∃ tail, lvs k V F = F ++ tail.
Proof.
  destruct k as [|k]; cbn [levels].
  - exists []. by rewrite app_nil_r.
  - destruct (expandOn F V []) as [V1 next]. by eexists.
Qed.

Lemma levels_prefix k j : ∀ V F, lvs k V F `prefix_of` lvs (k + j) V F.
Proof.
  induction k as [|k IH]; intros V F.
  - cbn [levels Nat.add]. destruct (levels_head j V F) as [tail ->]. by exists tail.
  - cbn [levels Nat.add]. destruct (expandOn F V []) as [V1 next].
    apply prefix_app, IH.
Qed.

(** Every link of the levels is some link of the first level, or is
  reached from one in at most [k] hops. *)
Lemma levels_sound k : ∀ V F l,
  l ∈ lvs k V F →
  ∃ n f, (n ≤ k)%nat ∧ f ∈ F ∧ reach n (Href f) (Href l).
Proof.
  induction k as [|k IH]; intros V F l; cbn [levels].
  - intros Hl. exists O, l. split_and!; [done|done|constructor].
  - destruct (expand_spec F V []) as (new & Hnew & _ & Hfrom & _).
    destruct (expandOn F V []) as [V1 next]. cbn [fst snd] in *. subst next.
    intros [Hl|Hl]%elem_of_app.
    + exists O, l. split_and!; [lia|done|constructor].
    + destruct (IH _ _ _ Hl) as (n & x & Hn & Hx & Hpath).
      destruct (Hfrom x Hx) as (f & Hf & Hxf).
      exists (S n), f. split_and!; [lia|done|].
      econstructor; [|exact Hpath]. apply list_elem_of_fmap. by exists x.
Qed.

Lemma closed_expand V F :
  closed client V F → closed client (expandOn F V []).1 (expandOn F V []).2.
Proof.
  intros [HF Hclosed].
  destruct (expand_spec F V []) as (new & Hnew & Hset & _ & Hall).
  rewrite Hnew. cbn [app]. split.
  - intros f Hf. apply Hset. right. apply list_elem_of_fmap. by exists f.
  - intros u w Hu Hnot Hw. apply Hset in Hu as [Hu|Hu]; [|done].
    destruct (decide (u ∈ List.map Href F)) as [Hlevel|Hdone].
    + apply list_elem_of_fmap in Hlevel as (f & -> & Hf). by apply (Hall f).
    + apply Hset. left. by apply (Hclosed u).
Qed.

(** Whatever is reached in at most [k] hops from a visited page is
  visited or is in the levels. *)
Lemma levels_complete k : ∀ V F,
  closed client V F →
  ∀ n u v, (n ≤ k)%nat → u ∈ V → reach n u v →
           v ∈ V ∨ v ∈ List.map Href (lvs k V F).
Proof.
  induction k as [|k IH]; intros V F Hclosed n.
  - intros u v Hn Hu Hpath. assert (n = O) as -> by lia.
    inversion Hpath; subst. by left.
  - induction n as [|n IHn]; intros u v Hn Hu Hpath.
    + inversion Hpath; subst. by left.
    + inversion Hpath as [|? ? w ? Hw Hrest]; subst.
      destruct (decide (u ∈ List.map Href F)) as [Hlevel|Hdone].
      * pose proof (closed_expand V F Hclosed) as Hclosed1.
        destruct (expand_spec F V []) as (new & Hnew & Hset & _ & Hall).
        apply list_elem_of_fmap in Hlevel as (f & -> & Hf).
        pose proof (Hall f w Hf Hw) as Hw1.
        cbn [levels].
        destruct (expandOn F V []) as [V1 next]. cbn [fst snd app] in *. subst next.
        destruct (IH V1 new Hclosed1 n w v) as [Hv|Hv]; [lia|done|done| |].
        -- apply Hset in Hv as [Hv|Hv]; [by left|].
           right. rewrite map_app, elem_of_app. right.
           destruct (levels_head k V1 new) as [tail ->].
           rewrite map_app, elem_of_app. by left.
        -- right. rewrite map_app, elem_of_app. by right.
      * destruct Hclosed as [HF Hcl].
        apply (IHn w v); [lia| |done]. by apply (Hcl u).
Qed.

End LevelSets.

Lemma static_is_static (site : list (string * html.Node)) :
  staticClient (example.static site).
Proof. intros requests u. reflexivity. Qed.

(** A run on a web that does not change returns the levels. *)
Lemma CrawlBFS_levels_run `{Library} (client : http.Client) (fuel : nat)
    (seed : Link) (rest : list Link) (maxDepth : Z) (out : Outcome) :
  staticClient client →
  maxDepth ≤ int.max →
  CrawlBFS fuel (seed :: rest) maxDepth client = Some out →
  out = {| returned := levels client (Z.to_nat maxDepth) {[ Href seed ]} [ seed ];
           err := None;
           fetches := fetchedLevels client (Z.to_nat maxDepth) {[ Href seed ]} [ seed ] |}.
Proof.
  intros Hstatic Hmax Hout.
  destruct (crawl_levels client maxDepth Hstatic Hmax (Z.to_nat maxDepth) O
              {| visited := {[ Href seed ]};
                 queue := [ {| link := seed; depth := 0 |} ];
                 result := []; requests := [] |} [ seed ])
    as (fuel' & st' & Hrun & Hres & Hreq); [done|done|].
  cbn [visited result requests app] in Hres, Hreq.
  apply (CrawlBFS_outcome_unique client (seed :: rest) maxDepth fuel fuel' _ _ Hout).
  unfold CrawlBFS. by rewrite Hrun, Hres, Hreq.
Qed.

(** X7.  On a web that does not change and for a depth that is a Go
  [int], [CrawlBFS] returns: it returns the pages level by level, the seed,
  then the new links of the seed's page in page order, then the new links
  of those pages, and so on down to level [maxDepth]; it has fetched the
  pages of all levels but the last, in the same order; and every run that
  ends gives this outcome. *)
Theorem CrawlBFS_level_by_level `{Library} (client : http.Client)
    (seed : Link) (rest : list Link) (maxDepth : Z) :
  staticClient client →
  int.InRange maxDepth →
  let out :=
    {| returned := levels client (Z.to_nat maxDepth) {[ Href seed ]} [ seed ];
       err := None;
       fetches := fetchedLevels client (Z.to_nat maxDepth) {[ Href seed ]} [ seed ] |} in
  (∃ fuel, CrawlBFS fuel (seed :: rest) maxDepth client = Some out)
  ∧ (∀ fuel out', CrawlBFS fuel (seed :: rest) maxDepth client = Some out' → out' = out).
Proof.
  intros Hstatic [_ Hmax] out. split.
  - destruct (crawl_levels client maxDepth Hstatic Hmax (Z.to_nat maxDepth) O
                {| visited := {[ Href seed ]};
                   queue := [ {| link := seed; depth := 0 |} ];
                   result := []; requests := [] |} [ seed ])
      as (fuel & st' & Hrun & Hres & Hreq); [done|done|].
    cbn [visited result requests app] in Hres, Hreq.
    exists fuel. unfold CrawlBFS. by rewrite Hrun, Hres, Hreq.
  - intros fuel out' Hout. by apply (CrawlBFS_levels_run client fuel seed rest).
Qed.

Lemma CrawlBFS_level_by_level_witness :
  ∃ fuel,
    @CrawlBFS golib.lib fuel [ {| Href := "https://a.com/p0"; Text := "seed" |} ] 1
      (example.static example.cycle3)
    = Some {| returned := [ {| Href := "https://a.com/p0"; Text := "seed" |};
                            {| Href := "https://a.com/p1"; Text := "one" |} ];
              err := None;
              fetches := [ "https://a.com/p0" ] |}.
Proof.
  assert (int.InRange 1) as Hrange by (unfold int.InRange, int.min, int.max; lia).
  destruct (@CrawlBFS_level_by_level golib.lib (example.static example.cycle3)
              {| Href := "https://a.com/p0"; Text := "seed" |} [] 1
              (static_is_static example.cycle3) Hrange) as [[fuel Hrun] _].
  exists fuel. rewrite Hrun. vm_compute. reflexivity.
Defined.

(** X8.  On a web that does not change, the hrefs [CrawlBFS] returns are
  exactly the URLs reached from the first seed link by following at most
  [maxDepth] links (none, when [maxDepth] is negative), each link being one
  [ExtractLinks] gives for the page it is followed from. *)
Theorem CrawlBFS_reachable `{Library} (client : http.Client) (fuel : nat)
    (seed : Link) (rest : list Link) (maxDepth : Z) (out : Outcome) :
  staticClient client →
  int.InRange maxDepth →
  CrawlBFS fuel (seed :: rest) maxDepth client = Some out →
  ∀ v, v ∈ List.map Href (returned out)
       ↔ ∃ n, (n ≤ Z.to_nat maxDepth)%nat ∧ hops client n (Href seed) v.
Proof.
  intros Hstatic [_ Hmax] Hout v.
  rewrite (CrawlBFS_levels_run client fuel seed rest maxDepth out Hstatic Hmax Hout).
  cbn [returned]. split.
  - intros (l & -> & Hl)%list_elem_of_fmap.
    destruct (levels_sound client _ _ _ _ Hl) as (n & f & Hn & Hf & Hpath).
    apply list_elem_of_singleton in Hf as ->. by exists n.
  - intros (n & Hn & Hpath).
    destruct (levels_complete client (Z.to_nat maxDepth) {[ Href seed ]} [ seed ])
      with (n := n) (u := Href seed) (v := v) as [Hv|Hv]; [|done|set_solver|done| |done].
    + split.
      * intros f ->%list_elem_of_singleton. set_solver.
      * intros u w ->%elem_of_singleton Hnot. exfalso. apply Hnot. by left.
    + apply elem_of_singleton in Hv as ->.
      destruct (levels_head client (Z.to_nat maxDepth) {[ Href seed ]} [ seed ])
        as [tail ->]. by left.
Qed.

Lemma CrawlBFS_reachable_witness :
  "https://a.com/p1" ∈
    List.map Href [ {| Href := "https://a.com/p0"; Text := "seed" |};
                    {| Href := "https://a.com/p1"; Text := "one" |} ]
  ↔ ∃ n, (n ≤ Z.to_nat 1)%nat
         ∧ @hops golib.lib (example.static example.cycle3) n
             "https://a.com/p0" "https://a.com/p1".
Proof.
  assert (int.InRange 1) as Hrange by (unfold int.InRange, int.min, int.max; lia).
  apply (@CrawlBFS_reachable golib.lib (example.static example.cycle3) 10
           {| Href := "https://a.com/p0"; Text := "seed" |} [] 1
           {| returned := [ {| Href := "https://a.com/p0"; Text := "seed" |};
                            {| Href := "https://a.com/p1"; Text := "one" |} ];
              err := None;
              fetches := [ "https://a.com/p0" ] |}
           (static_is_static example.cycle3) Hrange).
  vm_compute. reflexivity.
Defined.

(** X9.  On a web that does not change, a deeper crawl only adds links
  at the end: what [CrawlBFS] returns for a depth is the beginning of what
  it returns for any greater depth. *)
Theorem CrawlBFS_deeper_extends `{Library} (client : http.Client)
    (fuel1 fuel2 : nat) (seed : Link) (rest : list Link)
    (depth1 depth2 : Z) (out1 out2 : Outcome) :
  staticClient client →
  depth1 ≤ depth2 →
  depth2 ≤ int.max →
  CrawlBFS fuel1 (seed :: rest) depth1 client = Some out1 →
  CrawlBFS fuel2 (seed :: rest) depth2 client = Some out2 →
  returned out1 `prefix_of` returned out2.
Proof.
  intros Hstatic Hle Hmax Hout1 Hout2.
  rewrite (CrawlBFS_levels_run client fuel1 seed rest depth1 out1 Hstatic ltac:(lia) Hout1).
  rewrite (CrawlBFS_levels_run client fuel2 seed rest depth2 out2 Hstatic Hmax Hout2).
  cbn [returned].
  replace (Z.to_nat depth2)
    with (Z.to_nat depth1 + (Z.to_nat depth2 - Z.to_nat depth1))%nat by lia.
  apply levels_prefix.
Qed.

Lemma CrawlBFS_deeper_extends_witness :
  [ {| Href := "https://a.com/p0"; Text := "seed" |} ]
  `prefix_of` [ {| Href := "https://a.com/p0"; Text := "seed" |};
                {| Href := "https://a.com/p1"; Text := "one" |};
                {| Href := "https://a.com/p2"; Text := "two" |} ].
Proof.
  assert (0 ≤ 2) as Hle by lia.
  assert (2 ≤ int.max) as Hmax by (unfold int.max; lia).
  apply (@CrawlBFS_deeper_extends golib.lib (example.static example.cycle3) 10 10
           {| Href := "https://a.com/p0"; Text := "seed" |} [] 0 2
           {| returned := [ {| Href := "https://a.com/p0"; Text := "seed" |} ];
              err := None; fetches := [] |}
           {| returned := [ {| Href := "https://a.com/p0"; Text := "seed" |};
                            {| Href := "https://a.com/p1"; Text := "one" |};
                            {| Href := "https://a.com/p2"; Text := "two" |} ];
              err := None;
              fetches := [ "https://a.com/p0"; "https://a.com/p1" ] |}
           (static_is_static example.cycle3) Hle Hmax).
  - vm_compute. reflexivity.
  - vm_compute. reflexivity.
Defined.

(** ** Where the returned links come from *)

Section Found.
Context `{Library}.
Variable client : http.Client.
Variable maxDepth : Z.

Lemma crawlStep_found st n q :
  queue st = n :: q →
  ∃ new more,
    queue (crawlStep client maxDepth st) = q ++ new
    ∧ result (crawlStep client maxDepth st) = result st ++ [ link n ]
    ∧ requests (crawlStep client maxDepth st) = requests st ++ more
    ∧ ∀ m, m ∈ new →
        more = [ nodeHref n ]
        ∧ ∃ doc, FetchAndParse (nodeHref n) client (requests st) = inl doc
                 ∧ link m ∈ ExtractLinks doc (nodeHref n).
Proof.
  intros Hq. unfold crawlStep. rewrite Hq. unfold nodeHref.
  destruct (depth n >=? maxDepth).
  { exists [], []. cbn [queue result requests]. rewrite !app_nil_r.
    split_and!; [done..|]. intros m. by rewrite elem_of_nil. }
  destruct (FetchAndParse (Href (link n)) client (requests st)) as [doc|e] eqn:Hfetch.
  2:{ exists [], [ Href (link n) ]. cbn [queue result requests]. rewrite !app_nil_r.
      split_and!; [done..|]. intros m. by rewrite elem_of_nil. }
  destruct (enqueue_spec (ExtractLinks doc (Href (link n))) (depth n) (visited st) q)
    as (new & -> & Hnew & _).
  exists new, [ Href (link n) ]. cbn [queue result requests].
  split_and!; [done..|]. intros m Hm. split; [done|].
  exists doc. split; [done|].
  rewrite Forall_forall in Hnew. by destruct (Hnew m Hm).
Qed.

Lemma found_step seed st :
  found client seed st → found client seed (crawlStep client maxDepth st).
Proof.
  intros Hst. destruct (queue st) as [|n q] eqn:Hq.
  { unfold crawlStep. by rewrite Hq. }
  destruct (crawlStep_found st n q Hq) as (new & more & Hq' & Hres & Hreq & Hnew).
  unfold found in *. rewrite Hq', Hres, Hreq. rewrite Hq in Hst.
  intros l Hl.
  assert (Hcases : l ∈ result st ++ List.map link (n :: q) ∨ l ∈ List.map link new).
  { rewrite map_app in Hl. cbn [List.map]. clear -Hl.
    apply elem_of_app in Hl as [Hl|Hl].
    - apply elem_of_app in Hl as [Hl|Hl].
      + left. apply elem_of_app. by left.
      + left. apply elem_of_app. right. apply list_elem_of_singleton in Hl as ->. by left.
    - apply elem_of_app in Hl as [Hl|Hl].
      + left. apply elem_of_app. right. by right.
      + by right. }
  destruct Hcases as [Hold|Hfresh].
  - destruct (Hst l Hold) as [->|(before & u & after & doc & Hu & Hfetch & Hin)];
      [by left|].
    right. exists before, u, (after ++ more), doc. split_and!; [|done..].
    rewrite Hu, <- app_assoc. reflexivity.
  - apply list_elem_of_fmap in Hfresh as (m & -> & Hm).
    destruct (Hnew m Hm) as (-> & doc & Hfetch & Hin).
    right. exists (requests st), (nodeHref n), [], doc. done.
Qed.

End Found.

(** X10.  [CrawlBFS] invents no link, whatever the client answers: every
  link it returns is the first seed link, or a link that [ExtractLinks]
  gave, with the URL [u] of a page as [baseDomain], for the document the
  crawl itself received for [u]: [u] is one of the URLs the crawl passed to
  [FetchAndParse], and the document is the answer to that call, made after
  exactly the requests that precede [u] in the crawl. *)
Theorem CrawlBFS_links_found `{Library} (client : http.Client) (fuel : nat)
    (seed : Link) (rest : list Link) (maxDepth : Z) (out : Outcome) (l : Link) :
  CrawlBFS fuel (seed :: rest) maxDepth client = Some out →
  l ∈ returned out →
  l = seed
  ∨ ∃ before u after doc,
      fetches out = before ++ u :: after
      ∧ FetchAndParse u client before = inl doc
      ∧ l ∈ ExtractLinks doc u.
Proof.
  unfold CrawlBFS.
  destruct (crawlLoop _ _ _ _) as [st'|] eqn:Hrun; [|done]. intros [= <-].
  cbn [returned fetches]. intros Hl.
  pose proof (crawlLoop_out_empty _ _ _ _ _ Hrun) as Hq.
  apply (crawlLoop_invariant client maxDepth (found client seed)
           (found_step client maxDepth seed)) in Hrun.
  - apply Hrun. rewrite Hq. cbn [List.map]. by rewrite app_nil_r.
  - intros l'. cbn [result queue List.map link app].
    rewrite list_elem_of_singleton. by left.
Qed.

Lemma CrawlBFS_links_found_witness :
  {| Href := "https://a.com/p1"; Text := "one" |}
  = {| Href := "https://a.com/"; Text := "seed" |}
  ∨ ∃ before u after doc,
      [ "https://a.com/"; "https://a.com/gone"; "https://a.com/p1" ]
      = before ++ u :: after
      ∧ @FetchAndParse u (example.static example.broken) before = inl doc
      ∧ {| Href := "https://a.com/p1"; Text := "one" |} ∈ @ExtractLinks golib.lib doc u.
Proof.
  apply (@CrawlBFS_links_found golib.lib (example.static example.broken) 10
           {| Href := "https://a.com/"; Text := "seed" |} [] 2
           {| returned := [ {| Href := "https://a.com/"; Text := "seed" |};
                            {| Href := "https://a.com/gone"; Text := "gone" |};
                            {| Href := "https://a.com/p1"; Text := "one" |} ];
              err := None;
              fetches := [ "https://a.com/"; "https://a.com/gone"; "https://a.com/p1" ] |}).
  - vm_compute. reflexivity.
  - right. right. left.
Defined.

(** ** The program *)

Lemma EncodeXML_text `{Library} (links : list Link) :
  EncodeXML links = (sitemap (List.map Href links), None).
Proof.
  unfold EncodeXML, MarshalIndent. rewrite marshalUrlset_text.
  unfold sitemap, attribute. cbn [Urls Xmlns]. rewrite !map_map. cbn [Loc].
  f_equal.
  destruct links as [|l links]; cbn [List.map]; string_norm; reflexivity.
Qed.

Lemma CrawlBFS_halts `{Library} (client : http.Client) (links : list Link)
    (maxDepth : Z) :
  maxDepth ≤ int.max →
  ∃ fuel out, CrawlBFS fuel links maxDepth client = Some out.
Proof.
  intros Hmax. destruct links as [|links_0 rest]; [by exists O; eexists|].
  destruct (crawl_terminates_level client maxDepth (S (Z.to_nat maxDepth)) maxDepth
              {| visited := {[ Href links_0 ]};
                 queue := [ {| link := links_0; depth := 0 |} ];
                 result := []; requests := [] |})
    as (fuel & st' & Hrun); [done|lia|apply start_level|].
  exists fuel. eexists. unfold CrawlBFS. by rewrite Hrun.
Qed.

Lemma CrawlBFS_run_shape `{Library} (client : http.Client) (fuel : nat)
    (links_0 : Link) (rest : list Link) (maxDepth : Z) (out : Outcome) :
  CrawlBFS fuel (links_0 :: rest) maxDepth client = Some out →
  err out = None
  ∧ (∃ tail, returned out = links_0 :: tail)
  ∧ NoDup (List.map Href (returned out))
  ∧ fetches out `sublist_of` List.map Href (returned out).
Proof.
  unfold CrawlBFS.
  destruct (crawlLoop _ _ _ _) as [st'|] eqn:Hrun; [|done]. intros [= <-].
  cbn [err returned fetches].
  pose proof (crawlLoop_out_empty _ _ _ _ _ Hrun) as Hq.
  split_and!.
  - done.
  - apply (crawlLoop_invariant client maxDepth (seedFirst links_0)
             (seedFirst_step client maxDepth links_0)) in Hrun.
    + destruct Hrun as [[_ (d & q & Hq')]|Htail]; [congruence|exact Htail].
    + left. split; [done|]. by exists 0, [].
  - apply (crawlLoop_invariant client maxDepth unique (unique_step client maxDepth))
      in Hrun as [Hnd _].
    + by rewrite Hq, app_nil_r in Hnd.
    + split; simpl.
      * repeat constructor. set_solver.
      * intros h. unfold nodeHref. simpl. set_solver.
  - apply (crawlLoop_invariant client maxDepth requestsInResult
             (requestsInResult_step client maxDepth)) in Hrun; [exact Hrun|].
    unfold requestsInResult. simpl. done.
Qed.

Section StdoutFacts.
Context `{Library}.
Variable client : http.Client.
Variable errorText : ErrorText.
Variable maxDepth : Z.

(** An iteration makes no request and prints nothing, or makes one
  request and prints what that request prints. *)
Lemma stepStdout_requests st :
  queue st ≠ [] →
  (requests (crawlStep client maxDepth st) = requests st
   ∧ stepStdout client errorText maxDepth st = EmptyString)
  ∨ ∃ href,
      requests (crawlStep client maxDepth st) = requests st ++ [ href ]
      ∧ stepStdout client errorText maxDepth st
        = warningOf client errorText (requests st) href.
Proof.
  intros Hq. unfold crawlStep, stepStdout.
  destruct (queue st) as [|n q]; [done|].
  destruct (depth n >=? maxDepth); [by left|].
  right. exists (Href (link n)). split; [|done].
  destruct (FetchAndParse (Href (link n)) client (requests st)); [|done].
  by destruct (enqueue _ _ _ _).
Qed.

(** What the loop prints is what its requests print, in order. *)
Lemma loopStdout_warnings fuel : ∀ st st',
  crawlLoop client maxDepth fuel st = Some st' →
  ∃ more,
    requests st' = requests st ++ more
    ∧ loopStdout client errorText maxDepth fuel st
      = warningLines client errorText (requests st) more.
Proof.
  induction fuel as [|fuel IH]; intros st st'; cbn [crawlLoop loopStdout].
  - destruct (queue st); [|done]. intros [= <-]. exists []. by rewrite app_nil_r.
  - destruct (queue st) as [|n q] eqn:Hq.
    { intros [= <-]. exists []. by rewrite app_nil_r. }
    intros Hrun. destruct (IH _ _ Hrun) as (more & Hreq & Hout).
    destruct (stepStdout_requests st) as [[Hsame Hnone]|(href & Hone & Hline)];
      [by rewrite Hq|..].
    + exists more. rewrite Hnone, Hout, Hsame. split; [by rewrite Hreq, Hsame|done].
    + exists (href :: more). rewrite Hline, Hout, Hone. split.
      * by rewrite Hreq, Hone, <- app_assoc.
      * reflexivity.
Qed.

End StdoutFacts.

Lemma CrawlBFS_stdout_warnings `{Library} (client : http.Client)
    (errorText : ErrorText) (fuel : nat) (links_0 : Link) (rest : list Link)
    (maxDepth : Z) (out : Outcome) :
  CrawlBFS fuel (links_0 :: rest) maxDepth client = Some out →
  CrawlBFS_stdout fuel (links_0 :: rest) maxDepth client errorText
  = warningLines client errorText [] (fetches out).
Proof.
  unfold CrawlBFS, CrawlBFS_stdout.
  destruct (crawlLoop _ _ _ _) as [st'|] eqn:Hrun; [|done]. intros [= <-].
  destruct (loopStdout_warnings client errorText maxDepth _ _ _ Hrun)
    as (more & Hreq & ->).
  cbn [requests app fetches] in *. by rewrite Hreq.
Qed.



(** On the web with a dead link, whose home page links to the dead page
  first: the crawl starts at the dead page, and [main] prints the warning
  and a sitemap of the dead page alone. *)
Lemma main_stdout_broken :
  @main golib.lib 5 "https://a.com/" 1 (example.static example.broken)
    (fun _ _ => EmptyString)
  = Some {| stdout :=
              header "https://a.com/" 1
              +:+ Println ("Warning: Failed to fetch https://a.com/gone: "
                           +:+ "fetching URL https://a.com/gone: received status code 404")
              +:+ Println (@sitemap golib.lib [ "https://a.com/gone" ]);
            fetchedURLs := [ "https://a.com/"; "https://a.com/gone" ] |}.
Proof. vm_compute. reflexivity. Qed.

